(** * bsm/pool: a stack-ordered pool of net.Conn objects (pool.go)

    Shallow embedding of pool.go and the properties of its free-list.

    Modelling choices, all taken from the source:
    - a [net.Conn] interface value is [option Conn], [None] being the nil
      interface; an [error] is [option Err], [None] being nil;
    - Go's [int] and [time.Duration] are 64-bit signed integers, [avail] and
      [closed] are [int32]: all are [Z], and [atomic.AddInt32] wraps around;
    - [head] and [poolMember.next] are [unsafe.Pointer]s to [poolMember]
      objects: an [option loc] into the store [cells] of allocated members;
    - the factory, [time.Now] and [net.Conn.Close] act on the outside world:
      a [World] carries the clock, the number of factory calls so far and the
      ordered log of [Close] calls;
    - [Len], [pop], [Get], [Put], [close], [Close], [reap], [loop] and [New]
      are first written as they run when nothing interferes, so that each
      compare-and-swap succeeds at its first attempt; [step] then cuts [Put],
      [Get] and [Len] at every atomic access, for goroutines that interleave. *)

From Stdlib Require Import ZArith Lia.
From stdpp Require Import base option list gmap.

Local Open Scope Z_scope.

(** ** Machine integers *)

Definition min_int32 : Z := -2147483648.
Definition max_int32 : Z := 2147483647.

(** Two's complement wrap-around of a 32-bit signed integer. *)
Definition wrap32 (z : Z) : Z := (z + 2147483648) mod 4294967296 - 2147483648.

(** [time.Minute], in nanoseconds. *)
Definition time_Minute : Z := 60000000000.

(** ** The outside world *)

Definition Err := nat.
Abbreviation error := (option Err).

(** A connection object: an identity and the result of its [Close] method. *)
Record Conn := mkConn {
  conn_id : nat;
  conn_Close : error
}.

Abbreviation net_Conn := (option Conn).

Record World := mkWorld {
  now : Z;                 (* time.Now() *)
  factory_calls : nat;     (* invocations of the factory so far *)
  closes : list Conn       (* connections closed so far, oldest first *)
}.

(** [type Factory func() (net.Conn, error)]: its result may depend on
    everything that happened before. *)
Definition Factory := World -> net_Conn * error.

Definition count_call (w : World) : World :=
  {| now := now w; factory_calls := S (factory_calls w); closes := closes w |}.

Definition log_close (c : Conn) (w : World) : World :=
  {| now := now w; factory_calls := factory_calls w; closes := closes w ++ [c] |}.

(** ** Options *)

Record Options := mkOptions {
  InitialSize : Z;
  MaxCap : Z;
  IdleTimeout : Z;
  ReapInterval : Z
}.

(** [new(Options)] *)
Definition zero_Options : Options :=
  {| InitialSize := 0; MaxCap := 0; IdleTimeout := 0; ReapInterval := 0 |}.

Definition norm (o : Options) : Options :=
  let x := o in
  let x := if ReapInterval x <=? 0
           then {| InitialSize := InitialSize x; MaxCap := MaxCap x;
                   IdleTimeout := IdleTimeout x; ReapInterval := time_Minute |}
           else x in
  let x := if MaxCap x <=? 0
           then {| InitialSize := InitialSize x; MaxCap := 10;
                   IdleTimeout := IdleTimeout x; ReapInterval := ReapInterval x |}
           else x in
  let x := if MaxCap x <? InitialSize x
           then {| InitialSize := InitialSize x; MaxCap := InitialSize x;
                   IdleTimeout := IdleTimeout x; ReapInterval := ReapInterval x |}
           else x in
  x.

(** ** Pool members and the pool *)

Definition loc := positive.
Abbreviation ptr := (option loc).

Record poolMember := mkMember {
  Conn_ : net_Conn;        (* embedded net.Conn *)
  next : ptr;
  lastAccess : Z
}.

Record Pool := mkPool {
  head : ptr;
  opt : Options;
  factory : Factory;
  dying : bool;            (* channel [dying] has been closed *)
  dead : bool;             (* channel [dead] has been closed *)
  avail : Z;
  closed : Z;
  cells : gmap loc poolMember   (* the poolMember objects allocated so far *)
}.

Definition set_head (h : ptr) (s : Pool) : Pool :=
  {| head := h; opt := opt s; factory := factory s; dying := dying s;
     dead := dead s; avail := avail s; closed := closed s; cells := cells s |}.

Definition set_avail (n : Z) (s : Pool) : Pool :=
  {| head := head s; opt := opt s; factory := factory s; dying := dying s;
     dead := dead s; avail := n; closed := closed s; cells := cells s |}.

Definition set_closed (n : Z) (s : Pool) : Pool :=
  {| head := head s; opt := opt s; factory := factory s; dying := dying s;
     dead := dead s; avail := avail s; closed := n; cells := cells s |}.

Definition set_dying (b : bool) (s : Pool) : Pool :=
  {| head := head s; opt := opt s; factory := factory s; dying := b;
     dead := dead s; avail := avail s; closed := closed s; cells := cells s |}.

Definition set_dead (b : bool) (s : Pool) : Pool :=
  {| head := head s; opt := opt s; factory := factory s; dying := dying s;
     dead := b; avail := avail s; closed := closed s; cells := cells s |}.

(** [&poolMember{...}]: the new object lives at an address no member has. *)
Definition alloc (m : poolMember) (s : Pool) : loc * Pool :=
  let a := fresh (dom (cells s)) in
  (a, {| head := head s; opt := opt s; factory := factory s; dying := dying s;
         dead := dead s; avail := avail s; closed := closed s;
         cells := <[a := m]> (cells s) |}).

(** ** Results of running an operation *)

Inductive res (A : Type) : Type :=
  | Done (a : A) (s : Pool) (w : World)
  | Panic          (* run-time panic: nil dereference *)
  | OutOfFuel.     (* the loop was cut off by the fuel of the model *)
Arguments Done {A} a s w.
Arguments Panic {A}.
Arguments OutOfFuel {A}.

Definition M (A : Type) : Type := Pool -> World -> res A.

Definition ret {A} (a : A) : M A := fun s w => Done a s w.

Definition bind {A B} (m : M A) (k : A -> M B) : M B := fun s w =>
  match m s w with
  | Done a s' w' => k a s' w'
  | Panic => Panic
  | OutOfFuel => OutOfFuel
  end.

Notation "x <- m ;; k" := (bind m (fun x => k))
  (at level 100, m at next level, right associativity).

(** ** Operations *)

Definition Len (s : Pool) : Z := avail s.

Definition pop : M net_Conn := fun s w =>
  match head s with
  | None => Done None s w
  | Some a =>
      match cells s !! a with
      | None => Panic
      | Some m =>
          Done (Conn_ m) (set_avail (wrap32 (avail s - 1)) (set_head (next m) s)) w
      end
  end.

Definition Get : M (net_Conn * error) :=
  cn <- pop ;;
  match cn with
  | Some c => ret (Some c, None)
  | None => fun s w => Done (factory s w) s (count_call w)
  end.

Definition Put (cn : net_Conn) : M bool := fun s w =>
  if (MaxCap (opt s) <=? Len s) || (closed s =? 1) then
    match cn with
    | None => Panic
    | Some c => Done false s (log_close c w)
    end
  else
    let m := {| Conn_ := cn; next := head s; lastAccess := now w |} in
    let '(a, s1) := alloc m s in
    Done true (set_avail (wrap32 (avail s1 + 1)) (set_head (Some a) s1)) w.

(** [close]: the loop ends when [pop] returns nil; [fuel] bounds the number of
    iterations of the model. *)
Fixpoint close_loop (fuel : nat) (err : error) : M error :=
  match fuel with
  | O => fun _ _ => OutOfFuel
  | S fuel' =>
      cn <- pop ;;
      match cn with
      | None => ret err
      | Some c =>
          fun s w =>
            let e := conn_Close c in
            close_loop fuel' (match e with Some _ => e | None => err end)
                       s (log_close c w)
      end
  end.

Definition close (fuel : nat) : M error := close_loop fuel None.

Definition reap : M unit := fun s w =>
  let timeout := IdleTimeout (opt s) in
  if timeout <=? 0 then Done tt s w
  else Done tt s w.

(** [loop]: what the background goroutine does on the events it selects on.
    It leaves on [EvDying], closing [dead] on its way out. *)
Inductive loop_event := EvTick | EvDying.

Fixpoint loop (evs : list loop_event) : M unit :=
  match evs with
  | [] => ret tt
  | EvDying :: _ => fun s w => Done tt (set_dead true s) w
  | EvTick :: evs' => _ <- reap ;; loop evs'
  end.

(** [Close]: after [close(s.dying)] the receive from [dead] returns once the
    goroutine has left [loop]. *)
Definition Close (fuel : nat) : M error := fun s w =>
  if closed s =? 0 then
    (_ <- loop [EvDying] ;; close fuel) (set_dying true (set_closed 1 s)) w
  else Done None s w.

(** The body of [New]'s loop, run [n] more times. *)
Fixpoint warm_up (fuel : nat) (n : nat) : M error :=
  match n with
  | O => ret None
  | S n' =>
      fun s w =>
        let '(cn, err) := factory s w in
        let w1 := count_call w in
        match err with
        | Some e => (_ <- close fuel ;; ret (Some e)) s w1
        | None => (_ <- Put cn ;; warm_up fuel n') s w1
        end
  end.

(** What [New] hands back: [(p, nil)] or [(nil, err)]. *)
Inductive new_res : Type :=
  | NewOk (p : Pool) (w : World)
  | NewErr (e : Err) (w : World)
  | NewPanic
  | NewOutOfFuel.

(** The loop of [New] runs while [i < opt.InitialSize], from [i = 0]; once it
    is over the goroutine running [loop] is started. *)
Definition New (fuel : nat) (o : option Options) (f : Factory) (w : World)
  : new_res :=
  let o := match o with Some o => o | None => zero_Options end in
  let p := {| head := None; opt := norm o; factory := f;
              dying := false; dead := false;
              avail := 0; closed := 0; cells := ∅ |} in
  match warm_up fuel (Z.to_nat (InitialSize o)) p w with
  | Done None p' w' => NewOk p' w'
  | Done (Some e) _ w' => NewErr e w'
  | Panic => NewPanic
  | OutOfFuel => NewOutOfFuel
  end.

(** ** The free-list *)

(** [chain h p ms]: following [next] links from [p] in the store [h] visits
    exactly the members [ms], with their addresses, and ends at nil. *)
Inductive chain (h : gmap loc poolMember) : ptr -> list (loc * poolMember) -> Prop :=
  | chain_nil : chain h None []
  | chain_cons a m ms :
      h !! a = Some m ->
      chain h (next m) ms ->
      chain h (Some a) ((a, m) :: ms).

(** The same walk as a function that gives up after [fuel] links. *)
Fixpoint walk (fuel : nat) (h : gmap loc poolMember) (p : ptr)
  : option (list (loc * poolMember)) :=
  match p with
  | None => Some []
  | Some a =>
      match fuel with
      | O => None
      | S fuel' =>
          match h !! a with
          | None => None
          | Some m =>
              match walk fuel' h (next m) with
              | None => None
              | Some ms => Some ((a, m) :: ms)
              end
          end
      end
  end.

Definition free_list (s : Pool) (ms : list (loc * poolMember)) : Prop :=
  chain (cells s) (head s) ms.

(** The connections held by the members, top of the stack first. *)
Definition conns_of (ms : list (loc * poolMember)) : list net_Conn :=
  map (fun am => Conn_ (snd am)) ms.

(** The invariant of the free-list: an acyclic chain from [head] to nil whose
    length is the [avail] counter, an [int32]. *)
Definition free_list_inv (s : Pool) : Prop :=
  exists ms, free_list s ms /\ NoDup (map fst ms) /\
             avail s = Z.of_nat (length ms) /\ avail s <= max_int32.

(** The pool after [Put] has linked a member for [cn] at time [t]. *)
Definition pushed (cn : net_Conn) (t : Z) (s : Pool) : Pool :=
  {| head := Some (fresh (dom (cells s))); opt := opt s; factory := factory s;
     dying := dying s; dead := dead s;
     avail := wrap32 (avail s + 1); closed := closed s;
     cells := <[fresh (dom (cells s)) :=
                {| Conn_ := cn; next := head s; lastAccess := t |}]> (cells s) |}.

(** ** Concrete pools *)

(** A factory that always succeeds; each connection closes without error. *)
Definition dial : Factory :=
  fun w => (Some (mkConn (factory_calls w) None), None).

Definition w0 : World := {| now := 100; factory_calls := 0; closes := [] |}.

(** The options of TestPool in pool_test.go. *)
Definition test_options : Options :=
  {| InitialSize := 3; MaxCap := 5; IdleTimeout := 0; ReapInterval := 0 |}.

(** A pool whose capacity is beyond what the [int32] counter can hold. *)
Definition huge_options : Options :=
  {| InitialSize := 0; MaxCap := 4294967296; IdleTimeout := 0; ReapInterval := 0 |}.

Definition huge_pool : Pool :=
  {| head := None; opt := norm huge_options; factory := dial;
     dying := false; dead := false; avail := 0; closed := 0; cells := ∅ |}.



(** The world after [k] more factory calls and nothing else. *)
Definition world_after (k : nat) (w : World) : World := Nat.iter k count_call w.

(** The error [close] ends with after closing [cs] in this order, starting
    from [err]: each non-nil result of [Close] overwrites the previous one. *)
Definition last_close_error (err : error) (cs : list Conn) : error :=
  fold_left (fun err c => match conn_Close c with Some e => Some e | None => err end)
            cs err.

(** The world after the connections [cs] were closed in this order. *)
Definition closed_all (cs : list Conn) (w : World) : World :=
  {| now := now w; factory_calls := factory_calls w; closes := closes w ++ cs |}.

(** ** The loops of TestPool in pool_test.go *)

(** [for i := 0; i < n; i++ { cn, err := pool.Get(); ... }] *)
Fixpoint get_n (n : nat) : M (list (net_Conn * error)) :=
  match n with
  | O => ret []
  | S n' => r <- Get ;; rs <- get_n n' ;; ret (r :: rs)
  end.

(** [for _, cn := range cns { pool.Put(cn) }], with the results of [Put]. *)
Fixpoint put_all (cns : list net_Conn) : M (list bool) :=
  match cns with
  | [] => ret []
  | cn :: cns' => b <- Put cn ;; bs <- put_all cns' ;; ret (b :: bs)
  end.

(** What a successful checkout of the connection [c] looks like. *)
Definition got (c : Conn) : net_Conn * error := (Some c, None).

(** The pool of TestPool, as [New] returns it with the factory [dial]. *)
Definition test_pool : Pool :=
  match New 4 (Some test_options) dial w0 with
  | NewOk p _ => p
  | _ => huge_pool
  end.

(** A pool made with no options at all. *)
Definition default_pool : Pool :=
  match New 1 None dial w0 with
  | NewOk p _ => p
  | _ => huge_pool
  end.

(** [test_pool] after [Close]. *)
Definition shut_pool : Pool :=
  match Close 4 test_pool (world_after 3 w0) with
  | Done _ s _ => s
  | _ => test_pool
  end.

(** A pool with a 1ns idle timeout whose only member was put at time 100,
    and a world in which a second has passed since. *)
Definition stale_options : Options :=
  {| InitialSize := 1; MaxCap := 0; IdleTimeout := 1; ReapInterval := 0 |}.

Definition stale_pool : Pool :=
  match New 2 (Some stale_options) dial w0 with
  | NewOk p _ => p
  | _ => huge_pool
  end.

Definition late_world : World :=
  {| now := 1000000100; factory_calls := 1; closes := [] |}.

(** A factory whose second call fails. *)
Definition flaky : Factory :=
  fun w => if (factory_calls w =? 1)%nat
           then (None, Some 42%nat)
           else (Some (mkConn (factory_calls w) None), None).

(** Options with a negative InitialSize. *)
Definition negative_options : Options :=
  {| InitialSize := -1; MaxCap := 0; IdleTimeout := 0; ReapInterval := 0 |}.

(** [default_pool] after the connections 11, 12 and 13 were put, in this
    order. *)
Definition pushed1 : Pool := pushed (Some (mkConn 11 None)) (now w0) default_pool.
Definition pushed2 : Pool := pushed (Some (mkConn 12 None)) (now w0) pushed1.
Definition pushed3 : Pool := pushed (Some (mkConn 13 None)) (now w0) pushed2.

(** ** One atomic access at a time *)

(** The operations above are what a goroutine does when nothing runs in
    between. Below, [Put], [Get] and [Len] are cut at each atomic access to
    the pool, so that the accesses of several goroutines can be interleaved. *)

Definition set_cells (h : gmap loc poolMember) (s : Pool) : Pool :=
  {| head := head s; opt := opt s; factory := factory s; dying := dying s;
     dead := dead s; avail := avail s; closed := closed s; cells := h |}.

Definition set_next (p : ptr) (m : poolMember) : poolMember :=
  {| Conn_ := Conn_ m; next := p; lastAccess := lastAccess m |}.

(** Pointer comparison, as [CompareAndSwapPointer] does it. *)
Definition ptr_eqb (p q : ptr) : bool :=
  match p, q with
  | None, None => true
  | Some a, Some b => Pos.eqb a b
  | _, _ => false
  end.

(** What a call returned. *)
Inductive retval : Type :=
  | RetBool (b : bool)
  | RetConn (cn : net_Conn) (err : error)
  | RetInt (n : Z).

(** Where a goroutine stands: one point per atomic access. *)
Inductive pc : Type :=
  | PutLen (cn : net_Conn)      (* s.Len() >= s.opt.MaxCap *)
  | PutClosed (cn : net_Conn)   (* atomic.LoadInt32(&s.closed) == 1 *)
  | PutRefuse (cn : net_Conn)   (* _ = cn.Close(); return false *)
  | PutNew (cn : net_Conn)      (* m := &poolMember{Conn: cn, lastAccess: time.Now()} *)
  | PutLoad (a : loc)           (* m.next = atomic.LoadPointer(&s.head) *)
  | PutCAS (a : loc)            (* CompareAndSwapPointer(&s.head, m.next, m) *)
  | PutAdd                      (* atomic.AddInt32(&s.avail, 1); return true *)
  | PopLoad                     (* head := atomic.LoadPointer(&s.head) *)
  | PopCAS (h : loc)            (* CompareAndSwapPointer(&s.head, head, head.next) *)
  | PopAdd (h : loc)            (* atomic.AddInt32(&s.avail, -1); return head.Conn *)
  | GetNew                      (* return s.factory() *)
  | LenLoad                     (* atomic.LoadInt32(&s.avail) *)
  | Returned (v : retval)
  | Crashed.

Definition step (s : Pool) (w : World) (p : pc) : Pool * World * pc :=
  match p with
  | PutLen cn =>
      if MaxCap (opt s) <=? Len s then (s, w, PutRefuse cn) else (s, w, PutClosed cn)
  | PutClosed cn =>
      if closed s =? 1 then (s, w, PutRefuse cn) else (s, w, PutNew cn)
  | PutRefuse cn =>
      match cn with
      | None => (s, w, Crashed)
      | Some c => (s, log_close c w, Returned (RetBool false))
      end
  | PutNew cn =>
      let '(a, s1) := alloc {| Conn_ := cn; next := None; lastAccess := now w |} s in
      (s1, w, PutLoad a)
  | PutLoad a =>
      match cells s !! a with
      | None => (s, w, Crashed)
      | Some m => (set_cells (<[a := set_next (head s) m]> (cells s)) s, w, PutCAS a)
      end
  | PutCAS a =>
      match cells s !! a with
      | None => (s, w, Crashed)
      | Some m =>
          if ptr_eqb (head s) (next m) then (set_head (Some a) s, w, PutAdd)
          else (s, w, PutLoad a)
      end
  | PutAdd => (set_avail (wrap32 (avail s + 1)) s, w, Returned (RetBool true))
  | PopLoad =>
      match head s with
      | None => (s, w, GetNew)
      | Some h => (s, w, PopCAS h)
      end
  | PopCAS h =>
      match cells s !! h with
      | None => (s, w, Crashed)
      | Some m =>
          if ptr_eqb (head s) (Some h) then (set_head (next m) s, w, PopAdd h)
          else (s, w, PopLoad)
      end
  | PopAdd h =>
      match cells s !! h with
      | None => (s, w, Crashed)
      | Some m =>
          match Conn_ m with
          | Some c => (set_avail (wrap32 (avail s - 1)) s, w,
                       Returned (RetConn (Some c) None))
          | None => (set_avail (wrap32 (avail s - 1)) s, w, GetNew)
          end
      end
  | GetNew =>
      let '(cn, err) := factory s w in
      (s, count_call w, Returned (RetConn cn err))
  | LenLoad => (s, w, Returned (RetInt (Len s)))
  | Returned _ => (s, w, p)
  | Crashed => (s, w, p)
  end.

(** A goroutine running [n] steps on its own. *)
Fixpoint run_alone (n : nat) (s : Pool) (w : World) (p : pc) : Pool * World * pc :=
  match n with
  | O => (s, w, p)
  | S n' => let '(s', w', p') := step s w p in run_alone n' s' w' p'
  end.

(** Several goroutines on one pool; a schedule names the goroutine that takes
    the next step. *)
Record config := mkConfig {
  c_pool : Pool;
  c_world : World;
  c_threads : list pc
}.

Definition sched_step (c : config) (i : nat) : config :=
  match c_threads c !! i with
  | None => c
  | Some p =>
      let '(s', w', p') := step (c_pool c) (c_world c) p in
      {| c_pool := s'; c_world := w'; c_threads := <[i := p']> (c_threads c) |}
  end.

Definition run (sched : list nat) (c : config) : config :=
  fold_left sched_step sched c.

(** Three goroutines on [default_pool]: one puts a connection, one gets one,
    one asks for the length. *)
Definition race_start : config :=
  {| c_pool := default_pool; c_world := w0;
     c_threads := [PutLen (Some (mkConn 11 None)); PopLoad; LenLoad] |}.

(** [Put] up to its compare-and-swap, then all of [Get], then [Len], then the
    end of [Put]. *)
Definition race_sched : list nat := [0; 0; 0; 0; 0; 1; 1; 1; 2; 0]%nat.

(** Bookkeeping of an interleaving. A goroutine at [PutAdd] has linked a
    member that [avail] does not count yet; one at [PopAdd] has unlinked a
    member that [avail] still counts. *)
Definition pending (p : pc) : Z :=
  match p with
  | PutAdd => 1
  | PopAdd _ => -1
  | _ => 0
  end.

(** A goroutine in [Put] that found [Len] below MaxCap and has not finished. *)
Definition passed (p : pc) : Z :=
  match p with
  | PutClosed _ | PutNew _ | PutLoad _ | PutCAS _ | PutAdd => 1
  | _ => 0
  end.

(** The member a goroutine has allocated and not linked yet. *)
Definition owned (p : pc) : option loc :=
  match p with
  | PutLoad a | PutCAS a => Some a
  | _ => None
  end.

(** The member a goroutine has read from [head]. *)
Definition held (p : pc) : option loc :=
  match p with
  | PopCAS h | PopAdd h => Some h
  | _ => None
  end.

Definition total (f : pc -> Z) (ts : list pc) : Z :=
  fold_right (fun p acc => f p + acc) 0 ts.

(** A goroutine about to call [Put], [Get] or [Len]. *)
Definition is_call (p : pc) : bool :=
  match p with
  | PutLen _ | PopLoad | LenLoad => true
  | _ => false
  end.

Definition is_done (p : pc) : bool :=
  match p with
  | Returned _ => true
  | _ => false
  end.

(** What holds at every moment of an interleaving, for a bound [B] on the
    length the free-list may reach. *)
Definition conf_inv (B : Z) (c : config) : Prop :=
  let s := c_pool c in
  let ts := c_threads c in
  (exists ms,
     chain (cells s) (head s) ms /\
     avail s + total pending ts = Z.of_nat (length ms) /\
     (forall i p a, ts !! i = Some p -> owned p = Some a -> ~ In a (map fst ms))) /\
  (forall i p a, ts !! i = Some p -> owned p = Some a -> is_Some (cells s !! a)) /\
  (forall i j p q a, ts !! i = Some p -> ts !! j = Some q ->
                     owned p = Some a -> owned q = Some a -> i = j) /\
  (forall i p h, ts !! i = Some p -> held p = Some h -> is_Some (cells s !! h)) /\
  avail s + total passed ts <= B /\
  MaxCap (opt s) - 1 + Z.of_nat (length ts) <= B /\
  B <= max_int32 /\
  Z.of_nat (length ts) <= max_int32.

(** The pool states a program can observe between calls, when at most [N]
    calls of [Get], [Put] and [Len] are in flight together: the pool [New]
    returns; what one call of [Get], [Put] or [Close] or one tick of the
    background loop makes of such a state; and the state in which the calls
    of several goroutines, interleaved in any way, have all returned. *)
Inductive reachable (N : nat) : Pool -> Prop :=
  | reach_New fuel o f w p w' :
      New fuel o f w = NewOk p w' -> reachable N p
  | reach_Get s w r s' w' :
      reachable N s -> Get s w = Done r s' w' -> reachable N s'
  | reach_Put cn s w b s' w' :
      reachable N s -> Put cn s w = Done b s' w' -> reachable N s'
  | reach_Close fuel s w e s' w' :
      reachable N s -> Close fuel s w = Done e s' w' -> reachable N s'
  | reach_reap s w u s' w' :
      reachable N s -> reap s w = Done u s' w' -> reachable N s'
  | reach_run s w ts sched :
      reachable N s ->
      forallb is_call ts = true -> (length ts <= N)%nat ->
      forallb is_done (c_threads (run sched (mkConfig s w ts))) = true ->
      reachable N (c_pool (run sched (mkConfig s w ts))).

(** The connections checked out by six calls of [Get] on [test_pool]: the
    three it held, most recent first, then three new ones. *)
Definition test_conns : list Conn :=
  [mkConn 2 None; mkConn 1 None; mkConn 0 None;
   mkConn 3 None; mkConn 4 None; mkConn 5 None].

(** [test_pool] after these six calls. *)
Definition drained_pool : Pool :=
  match get_n 6 test_pool (world_after 3 w0) with
  | Done _ s _ => s
  | _ => test_pool
  end.

(** The free-list of [test_pool]: three members, the last one made on top. *)
Definition test_members : list (loc * poolMember) :=
  [(3%positive, {| Conn_ := Some (mkConn 2 None); next := Some 2%positive;
                   lastAccess := 100 |});
   (2%positive, {| Conn_ := Some (mkConn 1 None); next := Some 1%positive;
                   lastAccess := 100 |});
   (1%positive, {| Conn_ := Some (mkConn 0 None); next := None;
                   lastAccess := 100 |})].

(** ** Sequences of calls *)

(** A call made by a user of the pool, and what it answers. *)
Inductive call : Type :=
  | CallGet
  | CallPut (c : Conn)
  | CallLen
  | CallClose (fuel : nat)
  | CallReap.

Inductive answer : Type :=
  | GetAnswer (cn : net_Conn) (err : error)
  | PutAnswer (b : bool)
  | LenAnswer (n : Z)
  | CloseAnswer (err : error)
  | ReapAnswer.

Definition exec (k : call) : M answer :=
  match k with
  | CallGet => r <- Get ;; ret (GetAnswer (fst r) (snd r))
  | CallPut c => b <- Put (Some c) ;; ret (PutAnswer b)
  | CallLen => fun s w => Done (LenAnswer (Len s)) s w
  | CallClose fuel => e <- Close fuel ;; ret (CloseAnswer e)
  | CallReap => _ <- reap ;; ret ReapAnswer
  end.

Fixpoint exec_all (ks : list call) : M (list answer) :=
  match ks with
  | [] => ret []
  | k :: ks' => r <- exec k ;; rs <- exec_all ks' ;; ret (r :: rs)
  end.

(** What a call made in the world [w] answers on a pool [s] that is closed
    and empty: [Get] answers what the factory returns in [w]. *)
Definition shut_answers (s : Pool) (w : World) (k : call) (r : answer) : Prop :=
  match k with
  | CallGet => r = GetAnswer (fst (factory s w)) (snd (factory s w))
  | CallPut _ => r = PutAnswer false
  | CallLen => r = LenAnswer (Len s)
  | CallClose _ => r = CloseAnswer None
  | CallReap => r = ReapAnswer
  end.

(** What such a call leaves of the world: [Get] has called the factory,
    [Put] has closed its connection. *)
Definition shut_world (k : call) (w : World) : World :=
  match k with
  | CallGet => count_call w
  | CallPut c => log_close c w
  | _ => w
  end.

(** The answers [rs] to the calls [ks] made one after the other from the
    world [w] on. *)
Fixpoint shut_trace (s : Pool) (w : World) (ks : list call) (rs : list answer)
  : Prop :=
  match ks, rs with
  | [], [] => True
  | k :: ks', r :: rs' => shut_answers s w k r /\ shut_trace s (shut_world k w) ks' rs'
  | _, _ => False
  end.

(** The number of calls of [Get] in a sequence of calls. *)
Definition gets (ks : list call) : nat :=
  length (omap (fun k => match k with CallGet => Some tt | _ => None end) ks).

(** The connections handed to [Put] in a sequence of calls. *)
Definition put_args (ks : list call) : list Conn :=
  omap (fun k => match k with CallPut c => Some c | _ => None end) ks.

Definition is_dying (e : loop_event) : bool :=
  match e with
  | EvDying => true
  | EvTick => false
  end.

(** [default_pool] after [Put] of the connection 21 and then of nil. *)
Definition nil_top_pool : Pool :=
  pushed None (now w0) (pushed (Some (mkConn 21 None)) (now w0) default_pool).

(** ** Goroutines that put connections *)

(** A goroutine about to call [Put] on a connection, [Get] or [Len]. *)
Definition is_conn_call (p : pc) : bool :=
  match p with
  | PutLen (Some _) | PopLoad | LenLoad => true
  | _ => false
  end.

(** A goroutine that has not panicked and is not in a [Put] of nil that could
    still be refused. *)
Definition calm (p : pc) : bool :=
  match p with
  | Crashed | PutLen None | PutClosed None | PutRefuse None => false
  | _ => true
  end.

(** The member a step unlinks from the free-list: the compare-and-swap of
    [pop], when it succeeds. *)
Definition unlinked_by (s : Pool) (p : pc) : list loc :=
  match p with
  | PopCAS h =>
      match cells s !! h with
      | Some _ => if ptr_eqb (head s) (Some h) then [h] else []
      | None => []
      end
  | _ => []
  end.

(** The members unlinked in the course of a schedule, in this order. *)
Fixpoint unlinked (sched : list nat) (c : config) : list loc :=
  match sched with
  | [] => []
  | i :: sched' =>
      match c_threads c !! i with
      | Some p => unlinked_by (c_pool c) p
      | None => []
      end ++ unlinked sched' (sched_step c i)
  end.

(** The members [U] are out of the free-list for good: allocated, not on the
    chain, and not in the hands of a goroutine that could link them. *)
Definition gone (c : config) (U : list loc) : Prop :=
  NoDup U /\
  forall h, In h U ->
    is_Some (cells (c_pool c) !! h) /\
    (forall ms, chain (cells (c_pool c)) (head (c_pool c)) ms -> ~ In h (map fst ms)) /\
    (forall i p, c_threads c !! i = Some p -> owned p <> Some h).

(** A pool with room for one connection, and two goroutines that put one
    each: both read [Len] before either has linked its member. *)
Definition tight_options : Options :=
  {| InitialSize := 0; MaxCap := 1; IdleTimeout := 0; ReapInterval := 0 |}.

Definition tight_pool : Pool :=
  match New 1 (Some tight_options) dial w0 with
  | NewOk p _ => p
  | _ => huge_pool
  end.

Definition tight_race : config :=
  run [0; 1; 0; 0; 0; 0; 0; 1; 1; 1; 1; 1]%nat
      {| c_pool := tight_pool; c_world := w0;
         c_threads := [PutLen (Some (mkConn 31 None)); PutLen (Some (mkConn 32 None))] |}.

(** Two goroutines call [Get] on [test_pool]: both read [head], the second
    unlinks the first member, the first one fails its compare-and-swap, reads
    [head] again and unlinks the next member. *)
Definition get_race_start : config :=
  {| c_pool := test_pool; c_world := w0; c_threads := [PopLoad; PopLoad] |}.

Definition get_race_sched : list nat := [0; 1; 1; 1; 0; 0; 0; 0]%nat.

(** ** Calls at given times *)

Definition at_time (t : Z) (w : World) : World :=
  {| now := t; factory_calls := factory_calls w; closes := closes w |}.

(** Calls made one after the other, each at the time given with it. *)
Fixpoint exec_timed (tks : list (Z * call)) : M (list answer) :=
  match tks with
  | [] => ret []
  | (t, k) :: tks' =>
      fun s w => (r <- exec k ;; rs <- exec_timed tks' ;; ret (r :: rs)) s (at_time t w)
  end.

(** The times of a sequence of calls never go backwards, from [t] on. *)
Fixpoint rising (t : Z) (ts : list Z) : Prop :=
  match ts with
  | [] => True
  | t' :: ts' => t <= t' /\ rising t' ts'
  end.

(** The members [ms] were put no later than [t], each no later than the one
    above it. *)
Fixpoint aged (t : Z) (ms : list (loc * poolMember)) : Prop :=
  match ms with
  | [] => True
  | am :: ms' => lastAccess (snd am) <= t /\ aged (lastAccess (snd am)) ms'
  end.

(** The time of the last call, [t] when there is none. *)
Definition last_time (t : Z) (tks : list (Z * call)) : Z :=
  fold_left (fun _ t' => t') (map fst tks) t.


(** [Close] is given enough fuel for a free-list of [n] members. *)
Definition enough_fuel (n : nat) (k : call) : Prop :=
  match k with
  | CallClose fuel => (n < fuel)%nat
  | _ => True
  end.

(** Calls on [test_pool] as the clock advances. *)
Definition timed_calls : list (Z * call) :=
  [(100, CallGet); (150, CallPut (mkConn 7 None)); (150, CallLen);
   (200, CallPut (mkConn 8 None)); (300, CallGet); (300, CallReap);
   (400, CallPut (mkConn 9 None))].

(** ** The shape of the free-list while calls are in flight *)

(** What holds of the pointers at every moment of an interleaving, whatever
    the counter says: [head] leads through a chain to nil, a member that a
    [Put] has allocated and not linked is allocated, is not on the chain and
    belongs to one goroutine only, and the member a [pop] has read from
    [head] is allocated. *)
Definition conf_shape (c : config) : Prop :=
  let s := c_pool c in
  let ts := c_threads c in
  (exists ms,
     chain (cells s) (head s) ms /\
     (forall i p a, ts !! i = Some p -> owned p = Some a -> ~ In a (map fst ms))) /\
  (forall i p a, ts !! i = Some p -> owned p = Some a -> is_Some (cells s !! a)) /\
  (forall i j p q a, ts !! i = Some p -> ts !! j = Some q ->
                     owned p = Some a -> owned q = Some a -> i = j) /\
  (forall i p h, ts !! i = Some p -> held p = Some h -> is_Some (cells s !! h)).

(** ** Pools with a member that holds nil *)

(** A factory that always fails. *)
Definition broken : Factory := fun _ => (None, Some 42%nat).

Definition broken_pool : Pool :=
  match New 1 None broken w0 with
  | NewOk p _ => p
  | _ => huge_pool
  end.

(** [broken_pool] after [Put] of the connection 21 and then of nil. *)
Definition nil_first_pool : Pool :=
  pushed None (now w0) (pushed (Some (mkConn 21 None)) (now w0) broken_pool).


(** * Properties *)

(** ** Arithmetic of the counter *)

Lemma wrap32_id z : min_int32 <= z <= max_int32 -> wrap32 z = z.
Proof.
  unfold min_int32, max_int32, wrap32. intros Hz.
  rewrite Z.mod_small by lia. lia.
Qed.

(** ** Chains *)

Section Chains.
Variable h : gmap loc poolMember.

Lemma chain_det p ms1 ms2 : chain h p ms1 -> chain h p ms2 -> ms1 = ms2.
Proof.
  intros H1. revert ms2.
  induction H1 as [|a m ms Ha _ IH]; intros ms2 H2; inversion H2; subst.
  - reflexivity.
  - assert (m0 = m) by congruence. subst m0.
    f_equal. apply IH. assumption.
Qed.

Lemma chain_lookup p ms a m :
  chain h p ms -> In (a, m) ms -> h !! a = Some m.
Proof.
  induction 1 as [|a' m' ms Ha _ IH]; simpl; intros Hin.
  - contradiction.
  - destruct Hin as [Heq|Hin]; [congruence | auto].
Qed.

(** From any member of a chain, the rest of the chain is again a chain. *)
Lemma chain_from p ms a :
  chain h p ms -> In a (map fst ms) ->
  exists ms1 ms2, ms = ms1 ++ ms2 /\ chain h (Some a) ms2.
Proof.
  induction 1 as [|a' m' ms Ha Hc IH]; simpl; intros Hin.
  - contradiction.
  - destruct Hin as [Heq|Hin].
    + subst a'. exists [], ((a, m') :: ms). split; [reflexivity|].
      constructor; assumption.
    + destruct (IH Hin) as (ms1 & ms2 & -> & Hc2).
      exists ((a', m') :: ms1), ms2. split; [reflexivity | assumption].
Qed.

(** A chain that reaches nil never visits an address twice. *)
Lemma chain_NoDup p ms : chain h p ms -> NoDup (map fst ms).
Proof.
  induction 1 as [|a m ms Ha Hc IH]; simpl.
  - constructor.
  - constructor; [|assumption].
    rewrite list_elem_of_In. intros Hin.
    destruct (chain_from _ _ _ Hc Hin) as (ms1 & ms2 & Heq & Hc2).
    assert (Hc1 : chain h (Some a) ((a, m) :: ms)) by (constructor; assumption).
    pose proof (chain_det _ _ _ Hc1 Hc2) as Hsame.
    apply (f_equal (@length _)) in Hsame.
    rewrite Heq in Hsame. simpl in Hsame. rewrite length_app in Hsame.
    lia.
Qed.

Lemma chain_walk p ms : chain h p ms -> walk (length ms) h p = Some ms.
Proof.
  induction 1 as [|a m ms Ha _ IH]; simpl.
  - reflexivity.
  - rewrite Ha, IH. reflexivity.
Qed.

Lemma walk_chain fuel p ms : walk fuel h p = Some ms -> chain h p ms.
Proof.
  revert p ms. induction fuel as [|fuel IH]; intros [a|] ms; simpl; intros Hw;
    try discriminate; try (injection Hw as <-; constructor).
  destruct (h !! a) as [m|] eqn:Ha; [|discriminate].
  destruct (walk fuel h (next m)) as [ms'|] eqn:Hw'; [|discriminate].
  injection Hw as <-. constructor; auto.
Qed.

(** Members allocated later do not disturb a chain. *)
Lemma chain_alloc p ms a m :
  h !! a = None -> chain h p ms -> chain (<[a := m]> h) p ms.
Proof.
  intros Hfresh. induction 1 as [|a' m' ms Ha _ IH].
  - constructor.
  - constructor; [|assumption].
    rewrite lookup_insert_ne; [assumption | congruence].
Qed.
End Chains.

Lemma fresh_cell (h : gmap loc poolMember) : h !! fresh (dom h) = None.
Proof. apply not_elem_of_dom. apply is_fresh. Qed.

(** ** One step of each operation *)

Lemma pop_empty s w : head s = None -> pop s w = Done None s w.
Proof. unfold pop. intros ->. reflexivity. Qed.

Lemma pop_member s w a m :
  head s = Some a -> cells s !! a = Some m ->
  pop s w = Done (Conn_ m) (set_avail (wrap32 (avail s - 1)) (set_head (next m) s)) w.
Proof. unfold pop. intros -> ->. reflexivity. Qed.

(** On a free-list [pop] never panics: it unlinks the first member. *)
Lemma pop_free_list s w ms :
  free_list s ms ->
  match ms with
  | [] => pop s w = Done None s w
  | (a, m) :: ms' =>
      pop s w = Done (Conn_ m) (set_avail (wrap32 (avail s - 1)) (set_head (next m) s)) w
      /\ free_list (set_avail (wrap32 (avail s - 1)) (set_head (next m) s)) ms'
  end.
Proof.
  unfold free_list. intros Hc. inversion Hc as [Hh|a m ms' Ha Hc' Hh]; subst.
  - apply pop_empty. congruence.
  - split; [apply pop_member with (a := a); congruence | exact Hc'].
Qed.

Lemma Put_reject c s w :
  MaxCap (opt s) <= Len s \/ closed s = 1 ->
  Put (Some c) s w = Done false s (log_close c w).
Proof.
  intros Hfull. unfold Put.
  replace ((MaxCap (opt s) <=? Len s) || (closed s =? 1)) with true; [reflexivity|].
  symmetry. apply orb_true_iff. rewrite Z.leb_le, Z.eqb_eq. exact Hfull.
Qed.

Lemma Put_accept cn s w :
  Len s < MaxCap (opt s) -> closed s <> 1 ->
  Put cn s w = Done true (pushed cn (now w) s) w.
Proof.
  intros Hlen Hopen. unfold Put.
  replace ((MaxCap (opt s) <=? Len s) || (closed s =? 1)) with false; [reflexivity|].
  symmetry. apply orb_false_iff. rewrite Z.leb_gt, Z.eqb_neq. auto.
Qed.

Lemma Put_cases s :
  (MaxCap (opt s) <= Len s \/ closed s = 1) \/
  (Len s < MaxCap (opt s) /\ closed s <> 1).
Proof. lia. Qed.

Lemma pushed_free_list cn t s ms :
  free_list s ms ->
  free_list (pushed cn t s)
    ((fresh (dom (cells s)), {| Conn_ := cn; next := head s; lastAccess := t |}) :: ms).
Proof.
  unfold free_list, pushed. intros Hc. cbn [cells head]. constructor.
  - apply lookup_insert_eq.
  - cbn [next]. apply chain_alloc; [apply fresh_cell | exact Hc].
Qed.

Lemma Put_true cn s w s' w' :
  Put cn s w = Done true s' w' ->
  Len s < MaxCap (opt s) /\ closed s <> 1 /\ s' = pushed cn (now w) s /\ w' = w.
Proof.
  intros HPut. destruct (Put_cases s) as [Hfull|[Hlen Hopen]].
  - destruct cn as [c|].
    + rewrite Put_reject in HPut by exact Hfull. discriminate.
    + unfold Put in HPut.
      replace ((MaxCap (opt s) <=? Len s) || (closed s =? 1)) with true in HPut;
        [discriminate|].
      symmetry. apply orb_true_iff. rewrite Z.leb_le, Z.eqb_eq. exact Hfull.
  - rewrite Put_accept in HPut by assumption.
    injection HPut as <- <-. auto.
Qed.

Lemma Put_false cn s w s' w' :
  Put cn s w = Done false s' w' ->
  (MaxCap (opt s) <= Len s \/ closed s = 1) /\
  exists c, cn = Some c /\ s' = s /\ w' = log_close c w.
Proof.
  intros HPut. destruct (Put_cases s) as [Hfull|[Hlen Hopen]].
  - split; [exact Hfull|]. destruct cn as [c|].
    + rewrite Put_reject in HPut by exact Hfull.
      injection HPut as <- <-. eauto.
    + unfold Put in HPut.
      replace ((MaxCap (opt s) <=? Len s) || (closed s =? 1)) with true in HPut;
        [discriminate|].
      symmetry. apply orb_true_iff. rewrite Z.leb_le, Z.eqb_eq. exact Hfull.
  - rewrite Put_accept in HPut by assumption. discriminate.
Qed.

Lemma Get_empty s w :
  head s = None -> Get s w = Done (factory s w) s (count_call w).
Proof. intros Hh. unfold Get, bind. rewrite pop_empty by exact Hh. reflexivity. Qed.

Lemma Get_member s w a m c :
  head s = Some a -> cells s !! a = Some m -> Conn_ m = Some c ->
  Get s w = Done (Some c, None)
                 (set_avail (wrap32 (avail s - 1)) (set_head (next m) s)) w.
Proof.
  intros Hh Ha Hc. unfold Get, bind.
  rewrite (pop_member _ _ _ _ Hh Ha), Hc. reflexivity.
Qed.

(** A member that wraps the nil interface is dropped like a miss. *)
Lemma Get_nil_member s w a m :
  head s = Some a -> cells s !! a = Some m -> Conn_ m = None ->
  let s' := set_avail (wrap32 (avail s - 1)) (set_head (next m) s) in
  Get s w = Done (factory s' w) s' (count_call w).
Proof.
  intros Hh Ha Hc. unfold Get, bind.
  rewrite (pop_member _ _ _ _ Hh Ha), Hc. reflexivity.
Qed.

(** [Get] right after a push hands the pushed connection back and restores
    the free-list and the counter's predecessor. *)
Lemma Get_pushed c t s w :
  exists s', Get (pushed (Some c) t s) w = Done (Some c, None) s' w /\
             head s' = head s /\ opt s' = opt s /\ closed s' = closed s /\
             factory s' = factory s /\
             cells s' = cells (pushed (Some c) t s) /\
             avail s' = wrap32 (wrap32 (avail s + 1) - 1).
Proof.
  eexists. split.
  - eapply Get_member; [reflexivity | apply lookup_insert_eq | reflexivity].
  - repeat split.
Qed.

Lemma fresh_ne_member (h : gmap loc poolMember) a m :
  h !! a = Some m -> fresh (dom h) <> a.
Proof. intros Ha Heq. rewrite <- Heq, fresh_cell in Ha. discriminate. Qed.

(** ** Stack order *)

(** C1. Stack ordering: in every pool state, when [Put] pushes P1, P2 and P3
    (three calls that return true, nothing popped in between), the next
    three [Get] calls return P3, then P2, then P1, each without error, and
    leave the free-list as it was before the pushes. *)
Theorem lifo_order c1 c2 c3 s s1 s2 s3 wa wa' wb wb' wc wc' :
  Put (Some c1) s wa = Done true s1 wa' ->
  Put (Some c2) s1 wb = Done true s2 wb' ->
  Put (Some c3) s2 wc = Done true s3 wc' ->
  forall w4 w5 w6, exists s4 s5 s6,
    Get s3 w4 = Done (Some c3, None) s4 w4 /\
    Get s4 w5 = Done (Some c2, None) s5 w5 /\
    Get s5 w6 = Done (Some c1, None) s6 w6 /\
    head s6 = head s.
Proof.
  intros H1 H2 H3 w4 w5 w6.
  apply Put_true in H1 as (_ & _ & -> & _).
  apply Put_true in H2 as (_ & _ & -> & _).
  apply Put_true in H3 as (_ & _ & -> & _).
  set (s1 := pushed (Some c1) (now wa) s).
  set (s2 := pushed (Some c2) (now wb) s1).
  set (m1 := {| Conn_ := Some c1; next := head s; lastAccess := now wa |}).
  set (m2 := {| Conn_ := Some c2; next := head s1; lastAccess := now wb |}).
  assert (L1 : cells s1 !! fresh (dom (cells s)) = Some m1)
    by apply lookup_insert_eq.
  assert (L2 : cells s2 !! fresh (dom (cells s1)) = Some m2)
    by apply lookup_insert_eq.
  assert (L12 : cells s2 !! fresh (dom (cells s)) = Some m1).
  { unfold s2, pushed at 1. cbn [cells].
    rewrite lookup_insert_ne; [exact L1 | exact (fresh_ne_member _ _ _ L1)]. }
  destruct (Get_pushed c3 (now wc) s2 w4) as (s4 & G3 & Hh4 & _ & _ & _ & Hc4 & _).
  exists s4.
  assert (L4 : cells s4 !! fresh (dom (cells s1)) = Some m2).
  { rewrite Hc4. unfold pushed at 1. cbn [cells].
    rewrite lookup_insert_ne; [exact L2 | exact (fresh_ne_member _ _ _ L2)]. }
  assert (L41 : cells s4 !! fresh (dom (cells s)) = Some m1).
  { rewrite Hc4. unfold pushed at 1. cbn [cells].
    rewrite lookup_insert_ne; [exact L12 | exact (fresh_ne_member _ _ _ L12)]. }
  eexists. eexists. split; [exact G3|]. split.
  - eapply Get_member; [rewrite Hh4; reflexivity | exact L4 | reflexivity].
  - split.
    + eapply Get_member; [reflexivity | exact L41 | reflexivity].
    + reflexivity.
Qed.

Lemma lifo_order_witness :
  exists s4 s5 s6,
    Get pushed3 w0 = Done (Some (mkConn 13 None), None) s4 w0 /\
    Get s4 w0 = Done (Some (mkConn 12 None), None) s5 w0 /\
    Get s5 w0 = Done (Some (mkConn 11 None), None) s6 w0 /\
    head s6 = head default_pool.
Proof.
  apply (lifo_order (mkConn 11 None) (mkConn 12 None) (mkConn 13 None)
           default_pool pushed1 pushed2 pushed3 w0 w0 w0 w0 w0 w0).
  - vm_compute. reflexivity.
  - vm_compute. reflexivity.
  - vm_compute. reflexivity.
Defined.

(** ** The configuration is never written *)

Lemma pop_frame s w cn s' w' :
  pop s w = Done cn s' w' ->
  opt s' = opt s /\ factory s' = factory s /\ closed s' = closed s /\
  cells s' = cells s /\ w' = w.
Proof.
  unfold pop. intros Hpop.
  destruct (head s) as [a|]; [destruct (cells s !! a) as [m|]|];
    try discriminate; injection Hpop as _ <- <-; auto.
Qed.

Lemma Get_frame s w r s' w' :
  Get s w = Done r s' w' ->
  opt s' = opt s /\ factory s' = factory s /\ closed s' = closed s.
Proof.
  unfold Get, bind. intros HGet.
  destruct (pop s w) as [cn s1 w1| |] eqn:Hpop; try discriminate.
  apply pop_frame in Hpop as (? & ? & ? & _).
  destruct cn; [unfold ret in HGet|]; injection HGet as _ <- _; auto.
Qed.

Lemma Put_frame cn s w b s' w' :
  Put cn s w = Done b s' w' ->
  opt s' = opt s /\ factory s' = factory s /\ closed s' = closed s.
Proof.
  intros HPut. destruct b.
  - apply Put_true in HPut as (_ & _ & -> & _). auto.
  - apply Put_false in HPut as (_ & c & _ & -> & _). auto.
Qed.

Lemma close_loop_frame fuel err s w e s' w' :
  close_loop fuel err s w = Done e s' w' ->
  opt s' = opt s /\ factory s' = factory s /\ closed s' = closed s.
Proof.
  revert err s w. induction fuel as [|fuel IH]; intros err s w Hrun.
  - discriminate.
  - simpl in Hrun. unfold bind in Hrun.
    destruct (pop s w) as [cn s1 w1| |] eqn:Hpop; try discriminate.
    apply pop_frame in Hpop as (Ho & Hf & Hc & _).
    destruct cn as [c|].
    + apply IH in Hrun as (-> & -> & ->). auto.
    + unfold ret in Hrun. injection Hrun as _ <- _. auto.
Qed.

Lemma reap_id s w : reap s w = Done tt s w.
Proof. unfold reap. destruct (IdleTimeout (opt s) <=? 0); reflexivity. Qed.

Lemma Close_frame fuel s w e s' w' :
  Close fuel s w = Done e s' w' ->
  opt s' = opt s /\ factory s' = factory s.
Proof.
  unfold Close. intros Hrun. destruct (closed s =? 0).
  - unfold bind, loop, close in Hrun.
    apply close_loop_frame in Hrun as (-> & -> & _). auto.
  - injection Hrun as _ <- _. auto.
Qed.

Lemma warm_up_frame fuel n s w e s' w' :
  warm_up fuel n s w = Done e s' w' ->
  opt s' = opt s /\ factory s' = factory s.
Proof.
  revert s w. induction n as [|n IH]; intros s w Hrun; simpl in Hrun.
  - unfold ret in Hrun. injection Hrun as _ <- _. auto.
  - destruct (factory s w) as [cn [e0|]]; unfold bind in Hrun.
    + destruct (close fuel s (count_call w)) as [x s1 w1| |] eqn:Hcl;
        try discriminate.
      apply close_loop_frame in Hcl as (? & ? & _).
      unfold ret in Hrun. injection Hrun as _ <- _. auto.
    + destruct (Put cn s (count_call w)) as [b s1 w1| |] eqn:HPut;
        try discriminate.
      apply Put_frame in HPut as (Ho & Hf & _).
      apply IH in Hrun as (-> & ->). auto.
Qed.

Lemma New_opt fuel o f w p w' :
  New fuel o f w = NewOk p w' ->
  opt p = norm (default zero_Options o) /\ factory p = f.
Proof.
  unfold New. intros Hrun.
  match type of Hrun with
  | match warm_up ?fl ?n ?p0 ?w with _ => _ end = _ =>
      destruct (warm_up fl n p0 w) as [[e|] s1 w1| |] eqn:Hw; try discriminate;
      injection Hrun as <- <-;
      apply warm_up_frame in Hw as (-> & ->)
  end.
  destruct o; auto.
Qed.

(** Nor is it by any step of a goroutine. *)
Lemma step_opt s w p : opt (fst (fst (step s w p))) = opt s.
Proof.
  destruct p; cbn [step]; unfold alloc;
    repeat match goal with
           | |- context [if ?b then _ else _] => destruct b
           | |- context [match ?x with _ => _ end] => destruct x
           end; reflexivity.
Qed.

Lemma run_opt sched : forall c, opt (c_pool (run sched c)) = opt (c_pool c).
Proof.
  unfold run. induction sched as [|i sched IH]; intros c; simpl; [reflexivity|].
  rewrite IH. unfold sched_step.
  destruct (c_threads c !! i) as [p|]; [|reflexivity].
  pose proof (step_opt (c_pool c) (c_world c) p) as Hopt.
  destruct (step (c_pool c) (c_world c) p) as [[s' w'] p']. exact Hopt.
Qed.

(** ** The invariant of the free-list, operation by operation *)

Lemma free_list_inv_Len s : free_list_inv s -> 0 <= Len s <= max_int32.
Proof. intros (ms & _ & _ & Hav & Hmax). unfold Len. lia. Qed.

Lemma pop_inv s w :
  free_list_inv s ->
  exists cn s', pop s w = Done cn s' w /\ free_list_inv s' /\
                opt s' = opt s /\ closed s' = closed s /\ factory s' = factory s /\
                avail s' <= avail s.
Proof.
  intros (ms & Hfl & Hnd & Hav & Hmax).
  pose proof (pop_free_list s w ms Hfl) as Hpop.
  destruct ms as [|[a m] ms'].
  - exists None, s. split; [exact Hpop|]. split; [|repeat split; lia].
    exists []. auto.
  - destruct Hpop as [Hpop Hfl'].
    assert (Hw : wrap32 (avail s - 1) = avail s - 1)
      by (apply wrap32_id; simpl length in Hav; unfold min_int32; lia).
    eexists _, _. split; [exact Hpop|]. split.
    + exists ms'. split; [exact Hfl'|]. split.
      * simpl in Hnd. apply NoDup_cons in Hnd. tauto.
      * cbn [avail set_avail]. simpl length in Hav. rewrite Hw. lia.
    + cbn [avail set_avail opt closed factory set_head]. rewrite Hw.
      repeat split. lia.
Qed.

Lemma pushed_inv cn t s :
  free_list_inv s -> avail s < max_int32 -> free_list_inv (pushed cn t s).
Proof.
  intros (ms & Hfl & Hnd & Hav & Hmax) Hroom.
  eexists. split; [apply pushed_free_list; exact Hfl|]. split; [|split].
  - simpl. apply NoDup_cons. split; [|exact Hnd].
    rewrite list_elem_of_In, in_map_iff. intros ([a m] & Hfst & Hin).
    simpl in Hfst. subst a.
    pose proof (chain_lookup _ _ _ _ _ Hfl Hin) as Hsome.
    rewrite fresh_cell in Hsome. discriminate.
  - cbn [avail pushed]. simpl length.
    rewrite wrap32_id by (unfold min_int32; lia). lia.
  - cbn [avail pushed]. rewrite wrap32_id by (unfold min_int32; lia). lia.
Qed.

Lemma Put_inv cn s w b s' w' :
  free_list_inv s -> MaxCap (opt s) <= max_int32 ->
  Put cn s w = Done b s' w' ->
  free_list_inv s' /\ opt s' = opt s.
Proof.
  intros Hinv Hcap HPut. destruct b.
  - apply Put_true in HPut as (Hlen & _ & -> & _).
    split; [|reflexivity]. apply pushed_inv; [exact Hinv|]. unfold Len in Hlen. lia.
  - apply Put_false in HPut as (_ & c & _ & -> & _). auto.
Qed.

Lemma Get_inv s w r s' w' :
  free_list_inv s -> Get s w = Done r s' w' ->
  free_list_inv s' /\ opt s' = opt s.
Proof.
  intros Hinv HGet.
  destruct (pop_inv s w Hinv) as (cn & s1 & Hpop & Hinv1 & Hopt & _).
  unfold Get, bind in HGet. rewrite Hpop in HGet.
  destruct cn as [c|].
  - unfold ret in HGet. injection HGet as _ <- _. auto.
  - injection HGet as _ <- _. auto.
Qed.

Lemma close_loop_inv fuel err s w e s' w' :
  free_list_inv s -> close_loop fuel err s w = Done e s' w' ->
  free_list_inv s' /\ opt s' = opt s /\ closed s' = closed s /\ avail s' <= avail s.
Proof.
  revert err s w. induction fuel as [|fuel IH]; intros err s w Hinv Hrun.
  - discriminate.
  - destruct (pop_inv s w Hinv) as (cn & s1 & Hpop & Hinv1 & Hopt & Hcl & _ & Hle).
    simpl in Hrun. unfold bind in Hrun. rewrite Hpop in Hrun.
    destruct cn as [c|].
    + apply IH in Hrun; [|exact Hinv1].
      destruct Hrun as (? & -> & -> & ?). repeat split; auto. lia.
    + unfold ret in Hrun. injection Hrun as _ <- _. auto.
Qed.

Lemma set_flags_inv s n b1 b2 :
  free_list_inv s -> free_list_inv (set_dead b2 (set_dying b1 (set_closed n s))).
Proof. intros (ms & H). exists ms. exact H. Qed.

Lemma Close_inv fuel s w e s' w' :
  free_list_inv s -> Close fuel s w = Done e s' w' ->
  free_list_inv s' /\ opt s' = opt s /\ avail s' <= avail s.
Proof.
  intros Hinv Hrun. unfold Close in Hrun.
  destruct (closed s =? 0).
  - unfold bind, loop in Hrun. unfold close in Hrun.
    apply close_loop_inv in Hrun; [|apply set_flags_inv; exact Hinv].
    destruct Hrun as (? & -> & _ & ?). auto.
  - injection Hrun as _ <- _. repeat split; auto. lia.
Qed.

Lemma warm_up_inv fuel n s w s' w' :
  free_list_inv s -> MaxCap (opt s) <= max_int32 ->
  warm_up fuel n s w = Done None s' w' ->
  free_list_inv s' /\ opt s' = opt s.
Proof.
  revert s w. induction n as [|n IH]; intros s w Hinv Hcap Hrun; simpl in Hrun.
  - unfold ret in Hrun. injection Hrun as <- _. auto.
  - destruct (factory s w) as [cn [e|]].
    + unfold bind in Hrun. destruct (close fuel s (count_call w)); discriminate.
    + unfold bind in Hrun.
      destruct (Put cn s (count_call w)) as [b s1 w1| |] eqn:HPut; try discriminate.
      destruct (Put_inv _ _ _ _ _ _ Hinv Hcap HPut) as [Hinv1 Hopt1].
      apply IH in Hrun; [|exact Hinv1|rewrite Hopt1; exact Hcap].
      destruct Hrun as [? ->]. auto.
Qed.

Lemma New_inv fuel o f w p w' :
  MaxCap (norm (default zero_Options o)) <= max_int32 ->
  New fuel o f w = NewOk p w' ->
  free_list_inv p /\ opt p = norm (default zero_Options o).
Proof.
  intros Hcap Hrun. unfold New in Hrun.
  match type of Hrun with
  | match warm_up ?fl ?n ?p0 ?w with _ => _ end = _ =>
      destruct (warm_up fl n p0 w) as [[e|] s1 w1| |] eqn:Hw; try discriminate;
      injection Hrun as <- <-;
      apply warm_up_inv in Hw
  end.
  - destruct o; exact Hw.
  - exists []. repeat split; try constructor. unfold max_int32. simpl. lia.
  - destruct o; exact Hcap.
Qed.

(** ** Draining the free-list *)

Lemma closed_all_nil w : closed_all [] w = w.
Proof. destruct w. unfold closed_all. simpl. rewrite app_nil_r. reflexivity. Qed.

Lemma closed_all_cons c cs w : closed_all (c :: cs) w = closed_all cs (log_close c w).
Proof. unfold closed_all, log_close. simpl. rewrite <- app_assoc. reflexivity. Qed.

Lemma free_list_nil_head s : free_list s [] -> head s = None.
Proof. unfold free_list. inversion 1. reflexivity. Qed.

(** With one unit of fuel per member and one to see the empty list, [close]
    pops every member, closes its connection and keeps the last error. *)
Lemma close_loop_drain fuel err s w ms cs :
  free_list s ms -> conns_of ms = map Some cs -> (length ms < fuel)%nat ->
  exists s', close_loop fuel err s w
             = Done (last_close_error err cs) s' (closed_all cs w) /\
             free_list s' [] /\ opt s' = opt s /\ closed s' = closed s /\
             factory s' = factory s /\ dying s' = dying s /\ dead s' = dead s.
Proof.
  revert err s w ms cs.
  induction fuel as [|fuel IH]; intros err s w ms cs Hfl Hcs Hfuel; [lia|].
  pose proof (pop_free_list s w ms Hfl) as Hpop.
  destruct ms as [|[a m] ms'].
  - destruct cs; [|discriminate].
    exists s. simpl. unfold bind. rewrite Hpop. rewrite closed_all_nil.
    unfold ret. auto 10.
  - destruct cs as [|c cs]; [discriminate|].
    simpl in Hcs. injection Hcs as Hc Hcs.
    destruct Hpop as [Hpop Hfl'].
    destruct (IH (match conn_Close c with Some e => Some e | None => err end)
                 _ (log_close c w) ms' cs Hfl' Hcs) as (s' & Hrun & Hrest);
      [simpl in Hfuel; lia|].
    exists s'. split; [|exact Hrest].
    simpl. unfold bind. rewrite Hpop, Hc. rewrite closed_all_cons.
    destruct (conn_Close c); exact Hrun.
Qed.

Lemma last_close_error_app err cs1 cs2 :
  last_close_error err (cs1 ++ cs2) = last_close_error (last_close_error err cs1) cs2.
Proof. unfold last_close_error. apply fold_left_app. Qed.

(** The error kept is the result of the last [Close] that failed. *)
Lemma last_close_error_last cs :
  last_close_error None cs = last (omap conn_Close cs).
Proof.
  induction cs as [|c cs IH] using rev_ind; [reflexivity|].
  rewrite last_close_error_app, omap_app. simpl.
  destruct (conn_Close c) as [e|].
  - rewrite last_snoc. reflexivity.
  - rewrite app_nil_r. exact IH.
Qed.

(** ** Warm-up *)

Lemma wrap32_le z : 0 <= z -> wrap32 z <= z.
Proof.
  intros Hz. unfold wrap32.
  pose proof (Z.mod_le (z + 2147483648) 4294967296). lia.
Qed.

Lemma wrap32_succ z : wrap32 (wrap32 z + 1) = wrap32 (z + 1).
Proof.
  unfold wrap32.
  replace ((z + 2147483648) mod 4294967296 - 2147483648 + 1 + 2147483648)
    with ((z + 2147483648) mod 4294967296 + 1) by lia.
  replace (z + 1 + 2147483648) with ((z + 2147483648) + 1) by lia.
  rewrite Zplus_mod_idemp_l. reflexivity.
Qed.

Lemma world_after_S k w : world_after k (count_call w) = world_after (S k) w.
Proof. unfold world_after. symmetry. apply Nat.iter_succ_r. Qed.

Lemma world_after_calls k w :
  factory_calls (world_after k w) = (factory_calls w + k)%nat /\
  closes (world_after k w) = closes w /\ now (world_after k w) = now w.
Proof.
  induction k as [|k IH]; simpl.
  - auto with arith.
  - destruct IH as (-> & -> & ->). auto with arith.
Qed.

Lemma conns_of_app ms1 ms2 : conns_of (ms1 ++ ms2) = conns_of ms1 ++ conns_of ms2.
Proof. unfold conns_of. apply map_app. Qed.

(** While every factory call succeeds, the loop of [New] pushes what the
    factory returns: [k] is the number of members pushed so far. *)
Lemma warm_up_success fuel n : forall k s w ms,
  free_list s ms ->
  avail s = wrap32 (Z.of_nat k) -> closed s <> 1 ->
  Z.of_nat (k + n) <= MaxCap (opt s) ->
  (forall i, (i < n)%nat -> snd (factory s (world_after i w)) = None) ->
  exists s' ms',
    warm_up fuel n s w = Done None s' (world_after n w) /\
    free_list s' (ms' ++ ms) /\
    conns_of ms' = rev (map (fun i => fst (factory s (world_after i w))) (seq 0 n)) /\
    avail s' = wrap32 (Z.of_nat (k + n)) /\
    closed s' = closed s /\ opt s' = opt s /\ factory s' = factory s.
Proof.
  induction n as [|n IH]; intros k s w ms Hfl Hav Hopen Hcap Hok.
  - exists s, []. rewrite Nat.add_0_r. simpl. unfold ret. auto 10.
  - pose proof (Hok 0%nat ltac:(lia)) as Hfirst. simpl in Hfirst.
    assert (HPut : forall cn, Put cn s (count_call w)
                   = Done true (pushed cn (now (count_call w)) s) (count_call w)).
    { intros cn. apply Put_accept; [|exact Hopen].
      unfold Len. rewrite Hav. pose proof (wrap32_le (Z.of_nat k)). lia. }
    destruct (factory s w) as [cn err] eqn:Hf. simpl in Hfirst. subst err.
    destruct (IH (S k) (pushed cn (now (count_call w)) s) (count_call w)
                 ((fresh (dom (cells s)),
                   {| Conn_ := cn; next := head s;
                      lastAccess := now (count_call w) |}) :: ms))
      as (s' & ms' & Hrun & Hfl' & Hcs & Hav' & Hcl' & Hopt' & Hfac').
    + apply pushed_free_list. exact Hfl.
    + cbn [avail pushed]. rewrite Hav, wrap32_succ. f_equal. lia.
    + exact Hopen.
    + cbn [opt pushed]. lia.
    + intros i Hi. cbn [factory pushed]. rewrite world_after_S. apply Hok. lia.
    + exists s', (ms' ++ [(fresh (dom (cells s)),
                          {| Conn_ := cn; next := head s;
                             lastAccess := now (count_call w) |})]).
      split; [|split; [|split; [|split]]].
      * simpl. rewrite Hf. unfold bind. rewrite HPut.
        rewrite Hrun, world_after_S. reflexivity.
      * rewrite <- app_assoc. exact Hfl'.
      * rewrite conns_of_app, Hcs. cbn [seq map rev]. simpl conns_of.
        rewrite <- seq_shift, map_map. f_equal.
        -- f_equal. apply map_ext. intros i. cbn [factory pushed].
           rewrite world_after_S. reflexivity.
        -- unfold world_after. simpl. rewrite Hf. reflexivity.
      * rewrite Hav'. f_equal. lia.
      * auto.
Qed.

(** When the factory fails after the connections [made], the loop closes
    what it had pushed, most recent first, then what was there before. *)
Lemma warm_up_failure fuel n : forall made k s w ms cs e,
  (length made < n)%nat ->
  free_list s ms -> conns_of ms = map Some cs ->
  avail s = wrap32 (Z.of_nat k) -> closed s <> 1 ->
  Z.of_nat (k + n) <= MaxCap (opt s) ->
  (forall i c, made !! i = Some c -> factory s (world_after i w) = (Some c, None)) ->
  snd (factory s (world_after (length made) w)) = Some e ->
  (length ms + length made < fuel)%nat ->
  exists s',
    warm_up fuel n s w
    = Done (Some e) s' (closed_all (rev made ++ cs) (world_after (S (length made)) w)) /\
    free_list s' [].
Proof.
  induction n as [|n IH]; intros made k s w ms cs e Hlt Hfl Hcs Hav Hopen Hcap
                                 Hmade Hfail Hfuel; [lia|].
  destruct made as [|c made].
  - simpl in Hfail. destruct (factory s w) as [cn err] eqn:Hf.
    simpl in Hfail. subst err.
    destruct (close_loop_drain fuel None s (count_call w) ms cs Hfl Hcs)
      as (s' & Hrun & Hfl' & _); [simpl in Hfuel; lia|].
    exists s'. split; [|exact Hfl'].
    simpl. rewrite Hf. unfold bind, close. rewrite Hrun. reflexivity.
  - pose proof (Hmade 0%nat c eq_refl) as Hf. simpl in Hf.
    assert (HPut : Put (Some c) s (count_call w)
                   = Done true (pushed (Some c) (now (count_call w)) s) (count_call w)).
    { apply Put_accept; [|exact Hopen].
      unfold Len. rewrite Hav. pose proof (wrap32_le (Z.of_nat k)). lia. }
    destruct (IH made (S k) (pushed (Some c) (now (count_call w)) s) (count_call w)
                 ((fresh (dom (cells s)),
                   {| Conn_ := Some c; next := head s;
                      lastAccess := now (count_call w) |}) :: ms)
                 (c :: cs) e)
      as (s' & Hrun & Hfl').
    + simpl in Hlt. lia.
    + apply pushed_free_list. exact Hfl.
    + simpl. rewrite Hcs. reflexivity.
    + cbn [avail pushed]. rewrite Hav, wrap32_succ. f_equal. lia.
    + exact Hopen.
    + cbn [opt pushed]. lia.
    + intros i c' Hi. cbn [factory pushed]. rewrite world_after_S.
      apply Hmade. exact Hi.
    + cbn [factory pushed]. rewrite world_after_S. exact Hfail.
    + simpl. simpl in Hfuel. lia.
    + exists s'. split; [|exact Hfl'].
      simpl warm_up. rewrite Hf. unfold bind. rewrite HPut.
      unfold bind in Hrun. rewrite Hrun. rewrite world_after_S.
      simpl rev. rewrite <- app_assoc. reflexivity.
Qed.

(** [New] hands a pool back only if every factory call succeeded. *)
Lemma warm_up_done fuel n : forall k s w ms s' w',
  free_list s ms ->
  avail s = wrap32 (Z.of_nat k) -> closed s <> 1 ->
  Z.of_nat (k + n) <= MaxCap (opt s) ->
  warm_up fuel n s w = Done None s' w' ->
  forall i, (i < n)%nat -> snd (factory s (world_after i w)) = None.
Proof.
  induction n as [|n IH]; intros k s w ms s' w' Hfl Hav Hopen Hcap Hrun i Hi; [lia|].
  simpl in Hrun. destruct (factory s w) as [cn [e|]] eqn:Hf.
  - unfold bind in Hrun.
    destruct (close fuel s (count_call w)); discriminate.
  - unfold bind in Hrun.
    assert (HPut : Put cn s (count_call w)
                   = Done true (pushed cn (now (count_call w)) s) (count_call w)).
    { apply Put_accept; [|exact Hopen].
      unfold Len. rewrite Hav. pose proof (wrap32_le (Z.of_nat k)). lia. }
    rewrite HPut in Hrun.
    destruct i as [|i]; [simpl; rewrite Hf; reflexivity|].
    rewrite <- world_after_S.
    refine (IH (S k) _ _ _ _ _ _ _ _ _ Hrun i ltac:(lia)).
    + apply pushed_free_list. exact Hfl.
    + cbn [avail pushed]. rewrite Hav, wrap32_succ. f_equal. lia.
    + exact Hopen.
    + cbn [opt pushed]. lia.
Qed.

Lemma norm_MaxCap o : InitialSize o <= MaxCap (norm o) /\ 0 < MaxCap (norm o).
Proof.
  unfold norm. destruct o as [i m t r]. simpl.
  destruct (r <=? 0); simpl; destruct (m <=? 0) eqn:Hm; simpl;
    try (destruct (10 <? i) eqn:Hi; simpl; lia);
    destruct (m <? i) eqn:Hi; simpl; lia.
Qed.

Lemma norm_InitialSize o : InitialSize (norm o) = InitialSize o.
Proof.
  unfold norm. destruct o as [i m t r]. simpl.
  destruct (r <=? 0); simpl; destruct (m <=? 0); simpl;
    try (destruct (10 <? i); reflexivity); destruct (m <? i); reflexivity.
Qed.

(** ** Checking out and returning *)

Lemma Get_Len s w r s' w' :
  free_list_inv s -> Get s w = Done r s' w' ->
  free_list_inv s' /\ Len s' = Z.max 0 (Len s - 1) /\
  opt s' = opt s /\ closed s' = closed s.
Proof.
  intros Hinv HGet.
  pose proof (Get_inv _ _ _ _ _ Hinv HGet) as [Hinv' _].
  pose proof (Get_frame _ _ _ _ _ HGet) as (Hopt & _ & Hcl).
  split; [exact Hinv'|]. split; [|auto].
  destruct Hinv as (ms & Hfl & _ & Hav & Hmax).
  pose proof (pop_free_list s w ms Hfl) as Hpop.
  unfold Get, bind in HGet. unfold Len.
  destruct ms as [|[a m] ms'].
  - rewrite Hpop in HGet. injection HGet as _ <- _. simpl in Hav. lia.
  - destruct Hpop as [Hpop _]. rewrite Hpop in HGet.
    assert (Hw : wrap32 (avail s - 1) = avail s - 1)
      by (apply wrap32_id; unfold min_int32; simpl length in Hav; lia).
    simpl length in Hav.
    destruct (Conn_ m); [unfold ret in HGet|]; injection HGet as _ <- _;
      cbn [avail set_avail]; lia.
Qed.

Lemma get_n_Len n : forall s w rs s' w',
  free_list_inv s -> get_n n s w = Done rs s' w' ->
  free_list_inv s' /\ Len s' = Z.max 0 (Len s - Z.of_nat n) /\
  opt s' = opt s /\ closed s' = closed s.
Proof.
  induction n as [|n IH]; intros s w rs s' w' Hinv Hrun; simpl in Hrun.
  - unfold ret in Hrun. injection Hrun as _ <- _.
    pose proof (free_list_inv_Len _ Hinv). repeat split; auto. lia.
  - unfold bind in Hrun.
    destruct (Get s w) as [r s1 w1| |] eqn:HGet; try discriminate.
    destruct (get_n n s1 w1) as [rs1 s2 w2| |] eqn:Hrest; try discriminate.
    unfold ret in Hrun. injection Hrun as _ <- _.
    destruct (Get_Len _ _ _ _ _ Hinv HGet) as (Hinv1 & Hlen1 & Hopt1 & Hcl1).
    destruct (IH _ _ _ _ _ Hinv1 Hrest) as (Hinv2 & Hlen2 & Hopt2 & Hcl2).
    pose proof (free_list_inv_Len _ Hinv).
    repeat split; [exact Hinv2 | lia | congruence | congruence].
Qed.

(** Below the capacity of an open pool every [Put] is accepted. *)
Lemma put_all_accepted cs : forall s w,
  free_list_inv s -> closed s <> 1 ->
  Len s + Z.of_nat (length cs) <= MaxCap (opt s) -> MaxCap (opt s) <= max_int32 ->
  exists s', put_all (map Some cs) s w = Done (repeat true (length cs)) s' w /\
             free_list_inv s' /\ Len s' = Len s + Z.of_nat (length cs) /\
             opt s' = opt s /\ closed s' = closed s.
Proof.
  induction cs as [|c cs IH]; intros s w Hinv Hopen Hroom Hcap.
  - exists s. simpl. unfold ret. repeat split; auto. lia.
  - simpl length in Hroom.
    assert (HPut : Put (Some c) s w = Done true (pushed (Some c) (now w) s) w)
      by (apply Put_accept; [lia | exact Hopen]).
    assert (Hinv1 : free_list_inv (pushed (Some c) (now w) s)).
    { apply pushed_inv; [exact Hinv|]. unfold Len in Hroom. lia. }
    assert (Hlen1 : Len (pushed (Some c) (now w) s) = Len s + 1).
    { unfold Len. cbn [avail pushed]. apply wrap32_id.
      pose proof (free_list_inv_Len _ Hinv). unfold Len in *. unfold min_int32. lia. }
    destruct (IH (pushed (Some c) (now w) s) w Hinv1 Hopen) as (s' & Hrun & Hinv' & Hlen' & Hopt' & Hcl');
      [cbn [opt pushed]; lia | exact Hcap |].
    exists s'. simpl. unfold bind. rewrite HPut, Hrun. unfold ret.
    repeat split; auto. simpl length. lia.
Qed.

Lemma get_n_length n : forall s w rs s' w',
  get_n n s w = Done rs s' w' -> length rs = n.
Proof.
  induction n as [|n IH]; intros s w rs s' w' Hrun; simpl in Hrun.
  - unfold ret in Hrun. injection Hrun as <- _ _. reflexivity.
  - unfold bind in Hrun.
    destruct (Get s w) as [r s1 w1| |]; try discriminate.
    destruct (get_n n s1 w1) as [rs1 s2 w2| |] eqn:Hrest; try discriminate.
    unfold ret in Hrun. injection Hrun as <- _ _.
    simpl. f_equal. eapply IH. exact Hrest.
Qed.

(** What is known of a pool that [New] returned. *)
Lemma New_ok_inv fuel o f w p w' :
  New fuel o f w = NewOk p w' ->
  let n := Z.to_nat (InitialSize (default zero_Options o)) in
  w' = world_after n w /\
  (forall i, (i < n)%nat -> snd (f (world_after i w)) = None) /\
  exists ms,
    free_list p ms /\
    conns_of ms = rev (map (fun i => fst (f (world_after i w))) (seq 0 n)) /\
    avail p = wrap32 (Z.of_nat n) /\ closed p = 0 /\
    opt p = norm (default zero_Options o) /\ factory p = f.
Proof.
  intros Hrun n. unfold New in Hrun.
  set (o' := default zero_Options o) in *.
  replace (match o with Some o0 => o0 | None => zero_Options end) with o' in Hrun
    by (destruct o; reflexivity).
  fold n in Hrun.
  set (p0 := {| head := None; opt := norm o'; factory := f; dying := false;
                dead := false; avail := 0; closed := 0; cells := ∅ |}) in *.
  assert (Hfl0 : free_list p0 []) by constructor.
  assert (Hcap0 : Z.of_nat (0 + n) <= MaxCap (opt p0)).
  { pose proof (norm_MaxCap o'). cbn [opt p0]. unfold n. lia. }
  assert (Hopen0 : closed p0 <> 1) by discriminate.
  destruct (warm_up fuel n p0 w) as [[e|] s1 w1| |] eqn:Hw; try discriminate.
  injection Hrun as <- <-.
  pose proof (warm_up_done fuel n 0 p0 w [] _ _ Hfl0 eq_refl Hopen0 Hcap0 Hw) as Hall.
  destruct (warm_up_success fuel n 0 p0 w [] Hfl0 eq_refl Hopen0 Hcap0 Hall)
    as (s' & ms' & Hrun' & Hfl' & Hcs' & Hav' & Hcl' & Hopt' & Hfac').
  rewrite Hw in Hrun'. injection Hrun' as -> ->.
  split; [reflexivity|]. split; [exact Hall|].
  exists ms'. rewrite app_nil_r in Hfl'. auto 10.
Qed.

(** ** Put *)

(** C3. Contract of [Put], for every connection, pool and moment: when the
    pool is closed or [Len] has reached MaxCap, [Put] closes the connection
    and returns false; otherwise it returns true and the free-list has one
    more member on top, holding the connection and stamped with the time of
    the call. In a pool made with InitialSize 3 and MaxCap 5 from which six
    connections were checked out, the first five [Put] return true and bring
    [Len] to 5, the sixth returns false, its connection is closed and [Len]
    stays 5. *)
Theorem Put_contract :
  (forall c s w,
     closed s = 1 \/ MaxCap (opt s) <= Len s ->
     Put (Some c) s w = Done false s (log_close c w)) /\
  (forall c s w,
     closed s <> 1 -> Len s < MaxCap (opt s) ->
     exists s' a,
       Put (Some c) s w = Done true s' w /\
       cells s !! a = None /\ head s' = Some a /\
       cells s' = <[a := {| Conn_ := Some c; next := head s; lastAccess := now w |}]>
                    (cells s) /\
       (forall ms, free_list s ms ->
          free_list s' ((a, {| Conn_ := Some c; next := head s;
                               lastAccess := now w |}) :: ms)) /\
       avail s' = wrap32 (avail s + 1) /\
       opt s' = opt s /\ closed s' = closed s) /\
  (forall fuel f w p w1 cs p2 w2,
     New fuel (Some test_options) f w = NewOk p w1 ->
     get_n 6 p w1 = Done (map got cs) p2 w2 ->
     exists p3 c6,
       put_all (map Some (take 5 cs)) p2 w2
       = Done [true; true; true; true; true] p3 w2 /\
       Len p3 = 5 /\
       drop 5 cs = [c6] /\
       Put (Some c6) p3 w2 = Done false p3 (log_close c6 w2)).
Proof.
  split; [|split].
  - intros c s w Hrej. apply Put_reject. tauto.
  - intros c s w Hopen Hroom.
    exists (pushed (Some c) (now w) s), (fresh (dom (cells s))).
    split; [apply Put_accept; assumption|].
    split; [apply fresh_cell|].
    repeat split. intros ms Hfl. apply pushed_free_list. exact Hfl.
  - intros fuel f w p w1 cs p2 w2 HNew Hget.
    pose proof (New_ok_inv _ _ _ _ _ _ HNew) as (_ & _ & ms & Hfl & Hcs & Hav & Hcl & Hopt & _).
    simpl in Hav, Hopt, Hcs.
    assert (Hinv : free_list_inv p).
    { exists ms. split; [exact Hfl|]. split; [exact (chain_NoDup _ _ _ Hfl)|].
      apply (f_equal (@length _)) in Hcs. unfold conns_of in Hcs.
      rewrite length_map in Hcs. simpl in Hcs.
      rewrite Hav, Hcs. unfold max_int32. split; [reflexivity | discriminate]. }
    destruct (get_n_Len _ _ _ _ _ _ Hinv Hget) as (Hinv2 & Hlen2 & Hopt2 & Hcl2).
    apply get_n_length in Hget. rewrite length_map in Hget.
    unfold Len in Hlen2 at 2. rewrite Hav in Hlen2. simpl in Hlen2.
    assert (Hcap2 : MaxCap (opt p2) = 5) by (rewrite Hopt2, Hopt; reflexivity).
    assert (Htake : length (take 5 cs) = 5%nat) by (rewrite length_take; lia).
    destruct (put_all_accepted (take 5 cs) p2 w2 Hinv2) as (p3 & Hput & Hinv3 & Hlen3 & Hopt3 & Hcl3).
    + rewrite Hcl2, Hcl. discriminate.
    + rewrite Htake, Hlen2, Hcap2. reflexivity.
    + rewrite Hcap2. discriminate.
    + rewrite Htake in Hput, Hlen3. rewrite Hlen2 in Hlen3. simpl in Hput, Hlen3.
      destruct (drop 5 cs) as [|c6 [|c7 rest]] eqn:Hdrop.
      * apply (f_equal (@length _)) in Hdrop. rewrite length_drop in Hdrop.
        simpl in Hdrop. lia.
      * exists p3, c6. split; [exact Hput|]. split; [exact Hlen3|].
        split; [reflexivity|]. apply Put_reject. left. rewrite Hopt3, Hcap2, Hlen3. lia.
      * apply (f_equal (@length _)) in Hdrop. rewrite length_drop in Hdrop.
        simpl in Hdrop. lia.
Qed.

Lemma Put_contract_witness :
  Put (Some (mkConn 7 None)) shut_pool w0
  = Done false shut_pool (log_close (mkConn 7 None) w0) /\
  (exists s' a,
     Put (Some (mkConn 7 None)) default_pool w0 = Done true s' w0 /\
     cells default_pool !! a = None /\ head s' = Some a /\
     cells s' = <[a := {| Conn_ := Some (mkConn 7 None); next := head default_pool;
                          lastAccess := now w0 |}]> (cells default_pool) /\
     (forall ms, free_list default_pool ms ->
        free_list s' ((a, {| Conn_ := Some (mkConn 7 None);
                             next := head default_pool;
                             lastAccess := now w0 |}) :: ms)) /\
     avail s' = wrap32 (avail default_pool + 1) /\
     opt s' = opt default_pool /\ closed s' = closed default_pool) /\
  (exists p3 c6,
     put_all (map Some (take 5 test_conns)) drained_pool (world_after 6 w0)
     = Done [true; true; true; true; true] p3 (world_after 6 w0) /\
     Len p3 = 5 /\
     drop 5 test_conns = [c6] /\
     Put (Some c6) p3 (world_after 6 w0)
     = Done false p3 (log_close c6 (world_after 6 w0))).
Proof.
  destruct Put_contract as (Hreject & Haccept & Htest).
  split; [|split].
  - apply Hreject. left. vm_compute. reflexivity.
  - apply Haccept; vm_compute; [discriminate | reflexivity].
  - apply (Htest 4%nat dial w0 test_pool (world_after 3 w0)).
    + vm_compute. reflexivity.
    + vm_compute. reflexivity.
Defined.

(** C10. Whenever [Put] returns false the pool is what it was before the
    call: same head, same members, same [avail] and [Len]; the connection is
    not linked in. *)
Theorem Put_false_leaves_pool cn s w s' w' :
  Put cn s w = Done false s' w' ->
  s' = s /\ head s' = head s /\ cells s' = cells s /\
  avail s' = avail s /\ Len s' = Len s /\
  (forall ms, free_list s ms -> free_list s' ms).
Proof.
  intros HPut. apply Put_false in HPut as (_ & c & _ & -> & _).
  repeat split. auto.
Qed.

Lemma Put_false_leaves_pool_witness :
  shut_pool = shut_pool /\ head shut_pool = head shut_pool /\
  cells shut_pool = cells shut_pool /\
  avail shut_pool = avail shut_pool /\ Len shut_pool = Len shut_pool /\
  (forall ms, free_list shut_pool ms -> free_list shut_pool ms).
Proof.
  apply (Put_false_leaves_pool (Some (mkConn 7 None)) shut_pool w0 shut_pool
           (log_close (mkConn 7 None) w0)).
  vm_compute. reflexivity.
Defined.

(** ** Get *)

(** A [Put] of nil that was accepted leaves a member without a connection
    on the free-list. On such a pool the free-list is not empty and yet
    [Get] calls the factory, returns its error, and the pool has changed:
    it has lost a member. *)
Lemma Get_nil_member_error :
  reachable 1 nil_first_pool /\
  (exists a m ms, free_list nil_first_pool ((a, m) :: ms)) /\
  Len nil_first_pool = 2 /\
  exists s',
    Get nil_first_pool w0 = Done (None, Some 42%nat) s' (count_call w0) /\
    Len s' = 1 /\ head s' <> head nil_first_pool.
Proof.
  assert (Hreach : reachable 1 broken_pool).
  { apply (reach_New 1 1 None broken w0 broken_pool w0). vm_compute. reflexivity. }
  assert (HPut1 : Put (Some (mkConn 21 None)) broken_pool w0
                  = Done true (pushed (Some (mkConn 21 None)) (now w0) broken_pool) w0).
  { apply Put_accept; vm_compute; [reflexivity | discriminate]. }
  assert (HPut2 : Put None (pushed (Some (mkConn 21 None)) (now w0) broken_pool) w0
                  = Done true nil_first_pool w0).
  { apply Put_accept; vm_compute; [reflexivity | discriminate]. }
  split.
  { exact (reach_Put 1 _ _ _ _ _ _ (reach_Put 1 _ _ _ _ _ _ Hreach HPut1) HPut2). }
  split.
  { eexists _, _, _. apply (walk_chain _ 2). vm_compute. reflexivity. }
  split; [vm_compute; reflexivity|].
  eexists. split; [vm_compute; reflexivity|].
  split; [vm_compute; reflexivity | vm_compute; discriminate].
Qed.

(** C4, amended. Contract of [Get], for every pool and moment. When the first
    member of the free-list holds a connection, [Get] unlinks the member and
    returns the connection with a nil error, and the factory is not called.
    When the free-list is empty, [Get] calls the factory once and returns
    its pair of results as it is, error or not, and the pool is what it was
    before the call. When the first member holds nil, [Get] unlinks it,
    calls the factory once and returns its pair of results as it is. *)
Theorem Get_contract s w :
  (forall a m ms c,
     free_list s ((a, m) :: ms) -> Conn_ m = Some c ->
     exists s', Get s w = Done (Some c, None) s' w /\
                free_list s' ms /\ avail s' = wrap32 (avail s - 1) /\
                cells s' = cells s) /\
  (free_list s [] ->
     Get s w = Done (factory s w) s (count_call w) /\
     factory_calls (count_call w) = S (factory_calls w) /\
     closes (count_call w) = closes w) /\
  (forall a m ms,
     free_list s ((a, m) :: ms) -> Conn_ m = None ->
     exists s', Get s w = Done (factory s w) s' (count_call w) /\
                free_list s' ms /\ avail s' = wrap32 (avail s - 1) /\
                cells s' = cells s /\
                factory_calls (count_call w) = S (factory_calls w) /\
                closes (count_call w) = closes w).
Proof.
  split; [|split].
  - intros a m ms c Hfl Hc.
    destruct (pop_free_list s w _ Hfl) as [Hpop Hfl'].
    eexists. split; [|split; [exact Hfl'|split; reflexivity]].
    unfold Get, bind. rewrite Hpop, Hc. reflexivity.
  - intros Hfl. split; [|split; reflexivity].
    apply Get_empty. apply free_list_nil_head. exact Hfl.
  - intros a m ms Hfl Hc.
    destruct (pop_free_list s w _ Hfl) as [Hpop Hfl'].
    eexists. split; [|split; [exact Hfl'|repeat split]].
    unfold Get, bind. rewrite Hpop, Hc. reflexivity.
Qed.

Lemma Get_contract_witness :
  (exists s', Get test_pool w0 = Done (Some (mkConn 2 None), None) s' w0 /\
              free_list s' (tail test_members) /\
              avail s' = wrap32 (avail test_pool - 1) /\
              cells s' = cells test_pool) /\
  (Get default_pool w0 = Done (factory default_pool w0) default_pool (count_call w0) /\
   factory_calls (count_call w0) = S (factory_calls w0) /\
   closes (count_call w0) = closes w0) /\
  (exists s', Get nil_first_pool w0
              = Done (factory nil_first_pool w0) s' (count_call w0) /\
              free_list s' [(1%positive, {| Conn_ := Some (mkConn 21 None);
                                            next := None; lastAccess := 100 |})] /\
              avail s' = wrap32 (avail nil_first_pool - 1) /\
              cells s' = cells nil_first_pool /\
              factory_calls (count_call w0) = S (factory_calls w0) /\
              closes (count_call w0) = closes w0).
Proof.
  split; [|split].
  - destruct (Get_contract test_pool w0) as (Hhit & _ & _).
    apply (Hhit 3%positive
                {| Conn_ := Some (mkConn 2 None); next := Some 2%positive;
                   lastAccess := 100 |}).
    + apply (walk_chain _ 3). vm_compute. reflexivity.
    + reflexivity.
  - destruct (Get_contract default_pool w0) as (_ & Hmiss & _).
    apply Hmiss. apply (walk_chain _ 0). vm_compute. reflexivity.
  - destruct (Get_contract nil_first_pool w0) as (_ & _ & Hnil).
    apply (Hnil 2%positive
                {| Conn_ := None; next := Some 1%positive; lastAccess := 100 |}).
    + apply (walk_chain _ 2). vm_compute. reflexivity.
    + reflexivity.
Defined.

(** ** Close *)




(** A close error is reported, and the last one wins. *)
Example last_close_error_run :
  last_close_error None [mkConn 0 (Some 7%nat); mkConn 1 (Some 8%nat); mkConn 2 None]
  = Some 8%nat.
Proof. reflexivity. Qed.

(** ** Get on a closed pool *)

(** C9. [Get] does not read the closed flag: whatever is written into the
    flag, [Get] does the same and returns the same. Once [Close] has run on
    an open pool and drained its free-list, every [Get] calls the factory
    and returns its result, a connection or an error, and there is no
    failure for the pool being closed. *)
Theorem Get_ignores_closed :
  (forall s w n,
     Get (set_closed n s) w
     = match Get s w with
       | Done r s' w' => Done r (set_closed n s') w'
       | Panic => Panic
       | OutOfFuel => OutOfFuel
       end) /\
  (forall fuel s w ms cs,
     free_list s ms -> conns_of ms = map Some cs -> (length ms < fuel)%nat ->
     closed s = 0 ->
     exists e s' w',
       Close fuel s w = Done e s' w' /\ closed s' = 1 /\
       forall w2, Get s' w2 = Done (factory s w2) s' (count_call w2)).
Proof.
  split.
  - intros s w n. unfold Get, bind, pop. cbn [head cells set_closed].
    destruct (head s) as [a|]; [|reflexivity].
    destruct (cells s !! a) as [m|]; [|reflexivity].
    destruct (Conn_ m); reflexivity.
  - intros fuel s w ms cs Hfl Hcs Hfuel Hopen.
    destruct (close_loop_drain fuel None
                (set_dead true (set_dying true (set_closed 1 s))) w ms cs)
      as (s' & Hrun & Hfl' & _ & Hcl' & Hfac & _); [exact Hfl | exact Hcs | exact Hfuel |].
    exists (last_close_error None cs), s', (closed_all cs w).
    split; [|split; [exact Hcl'|]].
    + unfold Close. rewrite Hopen. simpl. unfold bind, close. rewrite Hrun. reflexivity.
    + intros w2. rewrite Get_empty by (apply free_list_nil_head; exact Hfl').
      rewrite Hfac. reflexivity.
Qed.

Lemma Get_ignores_closed_witness :
  Get (set_closed 1 test_pool) w0
  = match Get test_pool w0 with
    | Done r s' w' => Done r (set_closed 1 s') w'
    | Panic => Panic
    | OutOfFuel => OutOfFuel
    end /\
  exists e s' w',
    Close 4 test_pool w0 = Done e s' w' /\ closed s' = 1 /\
    forall w2, Get s' w2 = Done (factory test_pool w2) s' (count_call w2).
Proof.
  destruct Get_ignores_closed as [Hflag Hshut].
  split; [apply Hflag|].
  apply (Hshut 4%nat test_pool w0 test_members
               [mkConn 2 None; mkConn 1 None; mkConn 0 None]).
  - apply (walk_chain _ 3). vm_compute. reflexivity.
  - reflexivity.
  - simpl. lia.
  - vm_compute. reflexivity.
Defined.

(** ** New *)

(** With a negative InitialSize, [New] returns a pool of length 0 after no
    factory call: [Len] is not InitialSize. *)
Lemma New_negative_InitialSize :
  exists p w',
    New 1 (Some negative_options) dial w0 = NewOk p w' /\
    InitialSize (opt p) = -1 /\ Len p = 0 /\ Len p <> InitialSize (opt p) /\
    factory_calls w' = factory_calls w0.
Proof.
  eexists _, _. split; [vm_compute; reflexivity|].
  repeat split. discriminate.
Qed.

(** C5, amended. [New] calls the factory max(InitialSize, 0) times, one call
    after the other, and pushes each result. When all these calls succeed a
    pool is returned, whose free-list holds the results, the last one on top,
    and whose [Len] is max(InitialSize, 0) as long as InitialSize fits the
    32-bit counter. When a call fails after the connections [made], no
    further call is made, all of [made] are closed, the last one first, and
    [New] returns the factory's error and no pool. *)
Theorem New_contract fuel o f w :
  let size := InitialSize (default zero_Options o) in
  let n := Z.to_nat size in
  ((forall i, (i < n)%nat -> snd (f (world_after i w)) = None) ->
   exists p ms,
     New fuel o f w = NewOk p (world_after n w) /\
     factory_calls (world_after n w) = (factory_calls w + n)%nat /\
     closes (world_after n w) = closes w /\
     free_list p ms /\
     conns_of ms = rev (map (fun i => fst (f (world_after i w))) (seq 0 n)) /\
     Len p = wrap32 (Z.of_nat n) /\
     (size <= max_int32 -> Len p = Z.max 0 size)) /\
  (forall made e,
     (length made < n)%nat ->
     (forall i c, made !! i = Some c -> f (world_after i w) = (Some c, None)) ->
     snd (f (world_after (length made) w)) = Some e ->
     (length made < fuel)%nat ->
     New fuel o f w
     = NewErr e (closed_all (rev made) (world_after (S (length made)) w)) /\
     factory_calls (closed_all (rev made) (world_after (S (length made)) w))
     = (factory_calls w + S (length made))%nat /\
     closes (closed_all (rev made) (world_after (S (length made)) w))
     = closes w ++ rev made).
Proof.
  intros size n.
  set (o' := default zero_Options o) in *.
  set (p0 := {| head := None; opt := norm o'; factory := f; dying := false;
                dead := false; avail := 0; closed := 0; cells := ∅ |}).
  assert (HNew : New fuel o f w
                 = match warm_up fuel n p0 w with
                   | Done None p' w' => NewOk p' w'
                   | Done (Some e) _ w' => NewErr e w'
                   | Panic => NewPanic
                   | OutOfFuel => NewOutOfFuel
                   end) by (unfold New; destruct o; reflexivity).
  assert (Hfl0 : free_list p0 []) by constructor.
  assert (Hcap0 : Z.of_nat (0 + n) <= MaxCap (opt p0)).
  { pose proof (norm_MaxCap o'). cbn [opt p0]. unfold n, size. lia. }
  assert (Hopen0 : closed p0 <> 1) by discriminate.
  split.
  - intros Hall.
    destruct (warm_up_success fuel n 0 p0 w [] Hfl0 eq_refl Hopen0 Hcap0 Hall)
      as (p & ms & Hrun & Hfl & Hcs & Hav & _).
    exists p, ms. rewrite HNew, Hrun.
    destruct (world_after_calls n w) as (Hcalls & Hcloses & _).
    rewrite app_nil_r in Hfl. simpl in Hav.
    repeat split; try assumption.
    intros Hfit. unfold Len. rewrite Hav.
    rewrite wrap32_id by (unfold min_int32, max_int32 in *; unfold n; lia).
    unfold n. lia.
  - intros made e Hlt Hmade Hfail Hfuel.
    destruct (warm_up_failure fuel n made 0 p0 w [] [] e Hlt Hfl0 eq_refl eq_refl
                Hopen0 Hcap0 Hmade Hfail Hfuel) as (s' & Hrun & _).
    rewrite app_nil_r in Hrun. rewrite HNew, Hrun.
    destruct (world_after_calls (S (length made)) w) as (Hcalls & Hcloses & _).
    split; [reflexivity|]. split.
    + exact Hcalls.
    + cbn [closes closed_all]. rewrite Hcloses. reflexivity.
Qed.

(** With the options of TestPool: three calls of [dial] give a pool of
    length 3; [flaky] fails on the second of three calls, the first
    connection is closed and the error comes back. *)
Lemma New_contract_witness :
  (exists p ms,
     New 4 (Some test_options) dial w0 = NewOk p (world_after 3 w0) /\
     factory_calls (world_after 3 w0) = (factory_calls w0 + 3)%nat /\
     closes (world_after 3 w0) = closes w0 /\
     free_list p ms /\
     conns_of ms = rev (map (fun i => fst (dial (world_after i w0))) (seq 0 3)) /\
     Len p = wrap32 (Z.of_nat 3) /\
     (3 <= max_int32 -> Len p = Z.max 0 3)) /\
  New 4 (Some test_options) flaky w0
  = NewErr 42%nat (closed_all (rev [mkConn 0 None]) (world_after 2 w0)) /\
  factory_calls (closed_all (rev [mkConn 0 None]) (world_after 2 w0))
  = (factory_calls w0 + 2)%nat /\
  closes (closed_all (rev [mkConn 0 None]) (world_after 2 w0))
  = closes w0 ++ rev [mkConn 0 None].
Proof.
  split.
  - destruct (New_contract 4 (Some test_options) dial w0) as [Hok _].
    apply Hok. intros i Hi. reflexivity.
  - destruct (New_contract 4 (Some test_options) flaky w0) as [_ Hfail].
    apply (Hfail [mkConn 0 None] 42%nat).
    + vm_compute. lia.
    + intros [|[|i]] c Hc; [|discriminate|discriminate].
      injection Hc as <-. vm_compute. reflexivity.
    + vm_compute. reflexivity.
    + simpl. lia.
Defined.

(** ** Reaping *)

(** C7. What [reap] does: nothing, whatever the idle timeout. In particular
    on a pool whose idle timeout is 1ns and whose only member was put a
    second ago, the member is neither unlinked nor closed. *)
Theorem reap_keeps_stale_member :
  (forall s w, reap s w = Done tt s w) /\
  IdleTimeout (opt stale_pool) = 1 /\
  (exists a m,
     free_list stale_pool [(a, m)] /\ Conn_ m = Some (mkConn 0 None) /\
     lastAccess m + IdleTimeout (opt stale_pool) < now late_world) /\
  reap stale_pool late_world = Done tt stale_pool late_world /\
  Len stale_pool = 1 /\ closes late_world = [].
Proof.
  split; [exact reap_id|].
  split; [reflexivity|]. split.
  - exists 1%positive,
           {| Conn_ := Some (mkConn 0 None); next := None; lastAccess := 100 |}.
    split; [|split; [reflexivity | vm_compute; reflexivity]].
    apply (walk_chain _ 1). vm_compute. reflexivity.
  - split; [apply reap_id|]. split; reflexivity.
Qed.

(** ** Configuration *)

Lemma norm_eq o :
  norm o
  = {| InitialSize := InitialSize o;
       MaxCap := Z.max (if MaxCap o <=? 0 then 10 else MaxCap o) (InitialSize o);
       IdleTimeout := IdleTimeout o;
       ReapInterval := if ReapInterval o <=? 0 then time_Minute else ReapInterval o |}.
Proof.
  destruct o as [i m t r]. unfold norm. cbn [InitialSize MaxCap IdleTimeout ReapInterval].
  destruct (r <=? 0); cbn [InitialSize MaxCap IdleTimeout ReapInterval];
    destruct (m <=? 0); cbn [InitialSize MaxCap IdleTimeout ReapInterval].
  - destruct (10 <? i) eqn:Hi; f_equal; lia.
  - destruct (m <? i) eqn:Hi; f_equal; lia.
  - destruct (10 <? i) eqn:Hi; f_equal; lia.
  - destruct (m <? i) eqn:Hi; f_equal; lia.
Qed.


(** ** Goroutines, step by step *)

Lemma ptr_eqb_refl p : ptr_eqb p p = true.
Proof. destruct p as [a|]; [apply Pos.eqb_refl | reflexivity]. Qed.

(** The race: [Len] reports -1 although the pool was empty and ends empty. *)
Lemma race_Len_negative :
  c_threads (run race_sched race_start)
  = [Returned (RetBool true);
     Returned (RetConn (Some (mkConn 11 None)) None);
     Returned (RetInt (-1))] /\
  Len (c_pool race_start) = 0 /\
  Len (c_pool (run race_sched race_start)) = 0 /\
  head (c_pool (run race_sched race_start)) = None.
Proof. repeat split; vm_compute; reflexivity. Qed.

(** Left alone, a goroutine in [Put] does what [Put] says. *)
Lemma run_alone_Put cn s w :
  match Put cn s w with
  | Done b s' w' => run_alone 6 s w (PutLen cn) = (s', w', Returned (RetBool b))
  | Panic => snd (run_alone 6 s w (PutLen cn)) = Crashed
  | OutOfFuel => False
  end.
Proof.
  unfold Put. cbn [run_alone step].
  destruct (MaxCap (opt s) <=? Len s) eqn:Hfull; cbn [orb].
  - cbn [run_alone step]. destruct cn as [c|]; reflexivity.
  - cbn [run_alone step].
    destruct (closed s =? 1) eqn:Hcl; cbn [run_alone step].
    + destruct cn as [c|]; reflexivity.
    + unfold alloc. cbn [run_alone step cells head].
      rewrite lookup_insert_eq. cbn [run_alone step cells head set_cells].
      rewrite lookup_insert_eq. cbn [next set_next].
      rewrite ptr_eqb_refl. cbn [run_alone step].
      rewrite insert_insert_eq. reflexivity.
Qed.

(** Left alone, a goroutine in [Get] does what [Get] says. *)
Lemma run_alone_Get s w :
  match Get s w with
  | Done (cn, err) s' w' =>
      run_alone 4 s w PopLoad = (s', w', Returned (RetConn cn err))
  | Panic => snd (run_alone 4 s w PopLoad) = Crashed
  | OutOfFuel => False
  end.
Proof.
  unfold Get, bind, pop. cbn [run_alone step].
  destruct (head s) as [a|] eqn:Hh.
  - cbn [run_alone step].
    destruct (cells s !! a) as [m|] eqn:Ha; [|reflexivity].
    rewrite Hh, ptr_eqb_refl. cbn [run_alone step cells set_head].
    rewrite Ha. destruct (Conn_ m) as [c|].
    + reflexivity.
    + cbn [run_alone step factory set_avail set_head].
      destruct (factory s w) as [cn err]. reflexivity.
  - cbn [run_alone step]. destruct (factory s w) as [cn err]. reflexivity.
Qed.

Lemma run_alone_Len s w :
  run_alone 1 s w LenLoad = (s, w, Returned (RetInt (Len s))).
Proof. reflexivity. Qed.

(** ** Interleavings keep the free-list in shape *)

Lemma total_insert f ts i p p' :
  ts !! i = Some p -> total f (<[i := p']> ts) = total f ts - f p + f p'.
Proof.
  revert i. induction ts as [|q ts IH]; intros [|i] Hi; simpl in *; try discriminate.
  - injection Hi as ->. lia.
  - rewrite (IH i Hi). lia.
Qed.

Lemma total_bounds f ts lo hi :
  (forall p, lo <= f p <= hi) -> lo <= 0 <= hi ->
  lo * Z.of_nat (length ts) <= total f ts <= hi * Z.of_nat (length ts).
Proof.
  intros Hf H0. induction ts as [|q ts IH]; simpl total; simpl length.
  - lia.
  - specialize (Hf q). nia.
Qed.

Lemma pending_range p : -1 <= pending p <= 1.
Proof. destruct p; simpl; lia. Qed.

Lemma passed_range p : 0 <= passed p <= 1.
Proof. destruct p; simpl; lia. Qed.

(** A goroutine that has not passed the check leaves room for itself. *)
Lemma total_passed_room ts i p :
  ts !! i = Some p -> passed p = 0 -> total passed ts <= Z.of_nat (length ts) - 1.
Proof.
  revert i. induction ts as [|q ts IH]; intros [|i] Hi Hp; simpl in *; try discriminate.
  - injection Hi as ->. rewrite Hp.
    pose proof (total_bounds passed ts 0 1 passed_range ltac:(lia)). lia.
  - specialize (IH i Hi Hp). pose proof (passed_range q). lia.
Qed.

Lemma total_zero f ts :
  (forall p, In p ts -> f p = 0) -> total f ts = 0.
Proof.
  induction ts as [|q ts IH]; intros Hall; simpl; [reflexivity|].
  rewrite (Hall q) by (left; reflexivity).
  rewrite IH; [reflexivity|]. intros p Hp. apply Hall. right. exact Hp.
Qed.

Lemma ptr_eqb_eq p q : ptr_eqb p q = true -> p = q.
Proof.
  destruct p as [a|], q as [b|]; simpl; try discriminate; try reflexivity.
  intros H. apply Pos.eqb_eq in H. congruence.
Qed.

(** Writing a member that is not on the chain leaves the chain as it is. *)
Lemma chain_write_off h p ms a m :
  ~ In a (map fst ms) -> chain h p ms -> chain (<[a := m]> h) p ms.
Proof.
  intros Hout Hc. induction Hc as [|a' m' ms Ha _ IH].
  - constructor.
  - simpl in Hout. constructor.
    + rewrite lookup_insert_ne; [exact Ha | intros ->; apply Hout; left; reflexivity].
    + apply IH. intros Hin. apply Hout. right. exact Hin.
Qed.

Lemma chain_allocated h p ms a :
  chain h p ms -> In a (map fst ms) -> is_Some (h !! a).
Proof.
  intros Hc Hin. apply in_map_iff in Hin as ([a' m] & Heq & Hin).
  simpl in Heq. subst a'. exists m. exact (chain_lookup _ _ _ _ _ Hc Hin).
Qed.

Lemma thread_cases (ts : list pc) i p' j q :
  <[i := p']> ts !! j = Some q ->
  (j = i /\ q = p') \/ (j <> i /\ ts !! j = Some q).
Proof.
  intros H. apply list_lookup_insert_Some in H as [(-> & -> & _)|[Hne Hq]]; auto.
Qed.

Lemma total_ge f ts i p :
  (forall q, 0 <= f q) -> ts !! i = Some p -> f p <= total f ts.
Proof.
  intros Hf. revert i. induction ts as [|q ts IH]; intros [|i] Hi; simpl in *;
    try discriminate.
  - injection Hi as ->.
    assert (0 <= total f ts).
    { clear IH. induction ts as [|r ts IH]; simpl; [lia|]. specialize (Hf r). lia. }
    lia.
  - specialize (IH i Hi). specialize (Hf q). lia.
Qed.

(** One goroutine takes a step from [p] to [p'] and the pool goes from [s]
    to [s']: what is left to check. *)
Lemma update_inv B s w ts i p s' w' p' :
  conf_inv B (mkConfig s w ts) ->
  ts !! i = Some p ->
  opt s' = opt s ->
  (forall a, is_Some (cells s !! a) -> is_Some (cells s' !! a)) ->
  (exists ms',
     chain (cells s') (head s') ms' /\
     avail s' + (total pending ts - pending p + pending p') = Z.of_nat (length ms') /\
     (forall j q a, j <> i -> ts !! j = Some q -> owned q = Some a ->
                    ~ In a (map fst ms')) /\
     (forall a, owned p' = Some a -> ~ In a (map fst ms'))) ->
  (forall a, owned p' = Some a ->
     is_Some (cells s' !! a) /\
     forall j q, j <> i -> ts !! j = Some q -> owned q <> Some a) ->
  (forall h, held p' = Some h -> is_Some (cells s' !! h)) ->
  avail s' + (total passed ts - passed p + passed p') <= B ->
  conf_inv B (mkConfig s' w' (<[i := p']> ts)).
Proof.
  intros (_ & Hown & Hdist & Hheld & _ & Hcap & HB & Hn) Hi Hopt Hgrow
         (ms' & Hc' & Hcount' & Hothers' & Hmine') Hown' Hheld' Hbound'.
  unfold conf_inv. cbn [c_pool c_threads].
  split; [|split; [|split; [|split; [|split; [|split; [|split]]]]]].
  - exists ms'. split; [exact Hc'|]. split.
    + rewrite (total_insert _ _ _ _ _ Hi). exact Hcount'.
    + intros j q a Hj Hq. apply thread_cases in Hj as [[-> ->]|[Hne Hj]].
      * apply Hmine'. exact Hq.
      * exact (Hothers' j q a Hne Hj Hq).
  - intros j q a Hj Hq. apply thread_cases in Hj as [[-> ->]|[Hne Hj]].
    + apply Hown'. exact Hq.
    + apply Hgrow. exact (Hown j q a Hj Hq).
  - intros j k q r a Hj Hk Hq Hr.
    apply thread_cases in Hj as [[-> ->]|[Hnej Hj]];
      apply thread_cases in Hk as [[-> ->]|[Hnek Hk]].
    + reflexivity.
    + destruct (Hown' a Hq) as [_ Hfree]. destruct (Hfree k r Hnek Hk Hr).
    + destruct (Hown' a Hr) as [_ Hfree]. destruct (Hfree j q Hnej Hj Hq).
    + exact (Hdist j k q r a Hj Hk Hq Hr).
  - intros j q h Hj Hq. apply thread_cases in Hj as [[-> ->]|[Hne Hj]].
    + apply Hheld'. exact Hq.
    + apply Hgrow. exact (Hheld j q h Hj Hq).
  - rewrite (total_insert _ _ _ _ _ Hi). exact Hbound'.
  - rewrite Hopt, length_insert. exact Hcap.
  - exact HB.
  - rewrite length_insert. exact Hn.
Qed.

(** A step that leaves the pool alone. *)
Lemma move_inv B s w ts i p w' p' :
  conf_inv B (mkConfig s w ts) ->
  ts !! i = Some p ->
  pending p' = pending p ->
  (passed p' <= passed p \/ (passed p = 0 /\ Len s < MaxCap (opt s))) ->
  (owned p' = None \/ owned p' = owned p) ->
  (forall h, held p' = Some h -> is_Some (cells s !! h)) ->
  conf_inv B (mkConfig s w' (<[i := p']> ts)).
Proof.
  intros Hinv Hi Hpend Hpass Hown' Hheld'.
  pose proof Hinv as ((ms & Hc & Hcount & Hout) & Hown & Hdist & _ & Hbound & Hcap & _).
  cbn [c_pool c_threads] in *.
  assert (Hmine : forall a, owned p' = Some a -> owned p = Some a).
  { intros a Ha. destruct Hown' as [Hnone|Hsame]; congruence. }
  apply (update_inv B s w ts i p s w' p' Hinv Hi eq_refl); auto.
  - exists ms. split; [exact Hc|]. split; [lia|]. split.
    + intros j q a _ Hj Hq. exact (Hout j q a Hj Hq).
    + intros a Ha. exact (Hout i p a Hi (Hmine a Ha)).
  - intros a Ha. split; [exact (Hown i p a Hi (Hmine a Ha))|].
    intros j q Hne Hj Hq. apply Hne. exact (Hdist j i q p a Hj Hi Hq (Hmine a Ha)).
  - destruct Hpass as [Hle|[Hzero Hroom]]; [lia|].
    pose proof (total_passed_room ts i p Hi Hzero).
    pose proof (passed_range p'). unfold Len in Hroom. lia.
Qed.

Lemma insert_is_Some (h : gmap loc poolMember) a m b :
  is_Some (h !! b) -> is_Some (<[a := m]> h !! b).
Proof.
  intros Hb. destruct (decide (a = b)) as [->|Hne].
  - rewrite lookup_insert_eq. eauto.
  - rewrite lookup_insert_ne by exact Hne. exact Hb.
Qed.

Lemma conf_inv_avail_low B s w ts :
  conf_inv B (mkConfig s w ts) -> min_int32 < avail s.
Proof.
  intros ((ms & _ & Hcount & _) & _ & _ & _ & _ & _ & _ & Hn).
  cbn [c_pool c_threads] in *.
  pose proof (total_bounds pending ts (-1) 1 pending_range ltac:(lia)).
  unfold min_int32, max_int32 in *. lia.
Qed.

Ltac move_thread Hinv Hi :=
  eapply (move_inv _ _ _ _ _ _ _ _ Hinv Hi); simpl;
  [ reflexivity
  | try (left; lia)
  | first [left; reflexivity | right; reflexivity]
  | try (intros; discriminate) ].

Ltac no_member := simpl; intros; discriminate.

(** Every step of every goroutine keeps [conf_inv]. *)
Lemma sched_step_inv B c i : conf_inv B c -> conf_inv B (sched_step c i).
Proof.
  destruct c as [s w ts]. intros Hinv. unfold sched_step. cbn [c_pool c_world c_threads].
  destruct (ts !! i) as [p|] eqn:Hi; [|exact Hinv].
  pose proof Hinv as ((ms & Hc & Hcount & Hout) & Hown & Hdist & Hheld & Hbound & Hcap & HB & Hn).
  cbn [c_pool c_threads] in *.
  pose proof (conf_inv_avail_low _ _ _ _ Hinv) as Hlow.
  destruct p as [cn|cn|cn|cn|a|a| | |h|h| | |v|]; cbn [step].
  - (* PutLen *)
    destruct (MaxCap (opt s) <=? Len s) eqn:Hfull.
    + move_thread Hinv Hi.
    + apply Z.leb_gt in Hfull. move_thread Hinv Hi. right. auto.
  - (* PutClosed *)
    destruct (closed s =? 1); move_thread Hinv Hi.
  - (* PutRefuse *)
    destruct cn as [c|]; move_thread Hinv Hi.
  - (* PutNew *)
    unfold alloc.
    apply (update_inv B s w ts i _ _ w _ Hinv Hi); cbn [opt cells head avail];
      [reflexivity | | | | no_member | simpl; lia].
    + intros b Hb. apply insert_is_Some. exact Hb.
    + exists ms. split; [apply chain_alloc; [apply fresh_cell | exact Hc]|].
      split; [simpl; lia|]. split.
      * intros j q b _ Hj Hq. exact (Hout j q b Hj Hq).
      * intros b Hb. simpl in Hb. injection Hb as <-. intros Hin.
        destruct (chain_allocated _ _ _ _ Hc Hin) as [m Hm].
        rewrite fresh_cell in Hm. discriminate.
    + intros b Hb. simpl in Hb. injection Hb as <-. split.
      * rewrite lookup_insert_eq. eauto.
      * intros j q _ Hj Hq. destruct (Hown j q _ Hj Hq) as [m Hm].
        rewrite fresh_cell in Hm. discriminate.
  - (* PutLoad *)
    destruct (cells s !! a) as [m|] eqn:Ha; [|move_thread Hinv Hi].
    apply (update_inv B s w ts i _ _ w _ Hinv Hi); cbn [opt cells head avail set_cells];
      [reflexivity | | | | no_member | simpl; lia].
    + intros b Hb. apply insert_is_Some. exact Hb.
    + exists ms. split; [apply chain_write_off; [exact (Hout i _ a Hi eq_refl) | exact Hc]|].
      split; [simpl; lia|]. split.
      * intros j q b _ Hj Hq. exact (Hout j q b Hj Hq).
      * intros b Hb. simpl in Hb. injection Hb as <-. exact (Hout i _ a Hi eq_refl).
    + intros b Hb. simpl in Hb. injection Hb as <-. split.
      * rewrite lookup_insert_eq. eauto.
      * intros j q Hne Hj Hq. apply Hne. exact (Hdist j i q _ a Hj Hi Hq eq_refl).
  - (* PutCAS *)
    destruct (cells s !! a) as [m|] eqn:Ha; [|move_thread Hinv Hi].
    destruct (ptr_eqb (head s) (next m)) eqn:Heq; [|move_thread Hinv Hi].
    apply ptr_eqb_eq in Heq.
    apply (update_inv B s w ts i _ _ w _ Hinv Hi); cbn [opt cells head avail set_head];
      [reflexivity | auto | | no_member | no_member | simpl; lia].
    exists ((a, m) :: ms). split; [constructor; [exact Ha | rewrite <- Heq; exact Hc]|].
    split; [simpl pending; simpl length; lia|]. split; [|no_member].
    intros j q b Hne Hj Hq [Hb|Hb].
    + simpl in Hb. subst b. apply Hne. exact (Hdist j i q _ a Hj Hi Hq eq_refl).
    + exact (Hout j q b Hj Hq Hb).
  - (* PutAdd *)
    pose proof (total_ge passed ts i _ ltac:(intros q; apply passed_range) Hi) as Hme.
    simpl in Hme.
    assert (Hw : wrap32 (avail s + 1) = avail s + 1) by (apply wrap32_id; lia).
    apply (update_inv B s w ts i _ _ w _ Hinv Hi); cbn [opt cells head avail set_avail];
      [reflexivity | auto | | no_member | no_member | simpl; lia].
    exists ms. split; [exact Hc|]. split; [simpl; lia|]. split; [|no_member].
    intros j q b _ Hj Hq. exact (Hout j q b Hj Hq).
  - (* PopLoad *)
    destruct (head s) as [h|] eqn:Hh; move_thread Hinv Hi.
    intros h' Hh'. injection Hh' as <-. inversion Hc; subst. eauto.
  - (* PopCAS *)
    destruct (cells s !! h) as [m|] eqn:Ha; [|move_thread Hinv Hi].
    destruct (ptr_eqb (head s) (Some h)) eqn:Heq; [|move_thread Hinv Hi].
    apply ptr_eqb_eq in Heq.
    inversion Hc as [Hnil|a0 m0 ms0 Ha0 Hc0 Hhead]; [congruence|].
    assert (a0 = h) by congruence. subst a0.
    assert (m0 = m) by congruence. subst m0 ms.
    apply (update_inv B s w ts i _ _ w _ Hinv Hi); cbn [opt cells head avail set_head];
      [reflexivity | auto | | no_member | | simpl; lia].
    + exists ms0. split; [exact Hc0|].
      split; [simpl pending; simpl length in Hcount; lia|]. split; [|no_member].
      intros j q b _ Hj Hq Hb. apply (Hout j q b Hj Hq). right. exact Hb.
    + simpl. intros h' Hh'. injection Hh' as <-. eauto.
  - (* PopAdd *)
    pose proof (total_bounds passed ts 0 1 passed_range ltac:(lia)) as Hpos.
    assert (Hw : wrap32 (avail s - 1) = avail s - 1) by (apply wrap32_id; lia).
    destruct (Hheld i _ h Hi eq_refl) as [m Ha]. rewrite Ha.
    destruct (Conn_ m) as [c|];
      (apply (update_inv B s w ts i _ _ w _ Hinv Hi);
       cbn [opt cells head avail set_avail];
       [ reflexivity | auto
       | exists ms; split; [exact Hc|]; split; [simpl; lia|]; split;
         [ intros j q b _ Hj Hq; exact (Hout j q b Hj Hq) | no_member ]
       | no_member | no_member | simpl; lia ]).
  - (* GetNew *)
    destruct (factory s w) as [cn err]. move_thread Hinv Hi.
  - (* LenLoad *)
    move_thread Hinv Hi.
  - (* Returned *)
    move_thread Hinv Hi.
  - (* Crashed *)
    move_thread Hinv Hi.
Qed.

Lemma run_inv B sched : forall c, conf_inv B c -> conf_inv B (run sched c).
Proof.
  unfold run. induction sched as [|i sched IH]; intros c Hinv; simpl.
  - exact Hinv.
  - apply IH. apply sched_step_inv. exact Hinv.
Qed.

(** Goroutines that are about to call hold nothing and owe nothing. *)
Lemma start_inv B s w ts :
  free_list_inv s -> avail s <= B ->
  MaxCap (opt s) - 1 + Z.of_nat (length ts) <= B -> B <= max_int32 ->
  Z.of_nat (length ts) <= max_int32 ->
  forallb is_call ts = true ->
  conf_inv B (mkConfig s w ts).
Proof.
  intros (ms & Hfl & _ & Hav & _) HavB Hcap HB Hn Hcalls.
  rewrite forallb_forall in Hcalls.
  assert (Hin : forall i p, ts !! i = Some p -> In p ts).
  { intros i p Hi. apply list_elem_of_In. eapply list_elem_of_lookup_2. exact Hi. }
  assert (Hpend : total pending ts = 0).
  { apply total_zero. intros p Hp. specialize (Hcalls p Hp). destruct p; try discriminate; reflexivity. }
  assert (Hpass : total passed ts = 0).
  { apply total_zero. intros p Hp. specialize (Hcalls p Hp). destruct p; try discriminate; reflexivity. }
  assert (Hown : forall i p a, ts !! i = Some p -> owned p = Some a -> False).
  { intros i p a Hi Ha. specialize (Hcalls p (Hin i p Hi)). destruct p; discriminate. }
  assert (Hheld : forall i p h, ts !! i = Some p -> held p = Some h -> False).
  { intros i p h Hi Hh. specialize (Hcalls p (Hin i p Hi)). destruct p; discriminate. }
  unfold conf_inv. cbn [c_pool c_threads].
  split; [|split; [|split; [|split; [|split; [|split; [|split]]]]]]; try assumption; try lia.
  - exists ms. split; [exact Hfl|]. split; [lia|].
    intros i p a Hi Ha. destruct (Hown i p a Hi Ha).
  - intros i p a Hi Ha. destruct (Hown i p a Hi Ha).
  - intros i j p q a Hi _ Ha. destruct (Hown i p a Hi Ha).
  - intros i p h Hi Hh. destruct (Hheld i p h Hi Hh).
Qed.

(** Once every goroutine has returned, the counter is the length again. *)
Lemma quiescent_inv B c :
  conf_inv B c -> forallb is_done (c_threads c) = true ->
  free_list_inv (c_pool c) /\ avail (c_pool c) <= B.
Proof.
  destruct c as [s w ts]. cbn [c_pool c_threads].
  intros ((ms & Hc & Hcount & _) & _ & _ & _ & Hbound & _ & HB & _) Hdone.
  cbn [c_pool c_threads] in *.
  rewrite forallb_forall in Hdone.
  assert (Hpend : total pending ts = 0).
  { apply total_zero. intros p Hp. specialize (Hdone p Hp). destruct p; try discriminate; reflexivity. }
  assert (Hpass : total passed ts = 0).
  { apply total_zero. intros p Hp. specialize (Hdone p Hp). destruct p; try discriminate; reflexivity. }
  split; [|lia].
  exists ms. split; [exact Hc|]. split; [exact (chain_NoDup _ _ _ Hc)|]. lia.
Qed.

(** ** No nil dereference under interleaving *)

(** A goroutine that is not about to close a nil connection does not crash
    on its next step: the members it reads are allocated. *)
Lemma step_no_crash B s w ts i p :
  conf_inv B (mkConfig s w ts) -> ts !! i = Some p ->
  p <> Crashed -> p <> PutRefuse None ->
  snd (step s w p) <> Crashed.
Proof.
  intros (_ & Hown & _ & Hheld & _) Hi Hp Hnil. cbn [c_pool c_threads] in *.
  destruct p as [cn|cn|cn|cn|a|a| | |h|h| | |v|]; cbn [step].
  - destruct (MaxCap (opt s) <=? Len s); discriminate.
  - destruct (closed s =? 1); discriminate.
  - destruct cn as [c|]; [discriminate | congruence].
  - unfold alloc. discriminate.
  - destruct (Hown i _ a Hi eq_refl) as [m ->]. discriminate.
  - destruct (Hown i _ a Hi eq_refl) as [m ->].
    destruct (ptr_eqb (head s) (next m)); discriminate.
  - discriminate.
  - destruct (head s); discriminate.
  - destruct (Hheld i _ h Hi eq_refl) as [m ->].
    destruct (ptr_eqb (head s) (Some h)); discriminate.
  - destruct (Hheld i _ h Hi eq_refl) as [m ->]. destruct (Conn_ m); discriminate.
  - destruct (factory s w). discriminate.
  - discriminate.
  - discriminate.
  - congruence.
Qed.

(** ** The invariant at every quiescent state *)

Lemma reachable_MaxCap N p : reachable N p -> 0 < MaxCap (opt p).
Proof.
  induction 1 as [fuel o f w p w' HNew
                 | s w r s' w' _ IH HGet
                 | cn s w b s' w' _ IH HPut
                 | fuel s w e s' w' _ IH HClose
                 | s w u s' w' _ IH Hreap
                 | s w ts sched _ IH _ _ _].
  - apply New_opt in HNew as [-> _]. apply norm_MaxCap.
  - apply Get_frame in HGet as (-> & _). exact IH.
  - apply Put_frame in HPut as (-> & _). exact IH.
  - apply Close_frame in HClose as (-> & _). exact IH.
  - rewrite reap_id in Hreap. injection Hreap as _ <- _. exact IH.
  - rewrite run_opt. exact IH.
Qed.

Lemma reachable_inv N p :
  reachable N p -> (1 <= N)%nat ->
  MaxCap (opt p) - 1 + Z.of_nat N <= max_int32 ->
  free_list_inv p /\ avail p <= MaxCap (opt p) - 1 + Z.of_nat N.
Proof.
  intros Hreach HN.
  induction Hreach as [fuel o f w p w' HNew
                      | s w r s' w' Hs IH HGet
                      | cn s w b s' w' Hs IH HPut
                      | fuel s w e s' w' Hs IH HClose
                      | s w u s' w' Hs IH Hreap
                      | s w ts sched Hs IH Hcalls Hlen Hdone]; intros Hcap.
  - pose proof (New_opt _ _ _ _ _ _ HNew) as [Hopt _].
    pose proof (norm_MaxCap (default zero_Options o)) as [Hsize Hpos].
    rewrite Hopt in Hcap |- *.
    assert (Hm : MaxCap (norm (default zero_Options o)) <= max_int32) by lia.
    split; [exact (proj1 (New_inv _ _ _ _ _ _ Hm HNew))|].
    apply New_ok_inv in HNew as (_ & _ & ms & _ & _ & Hav & _).
    rewrite Hav.
    pose proof (wrap32_le (Z.of_nat (Z.to_nat (InitialSize (default zero_Options o))))
                  ltac:(lia)).
    lia.
  - pose proof (Get_frame _ _ _ _ _ HGet) as (Hopt & _).
    rewrite Hopt in Hcap |- *. destruct (IH Hcap) as [Hinv Hav].
    destruct (Get_Len _ _ _ _ _ Hinv HGet) as (Hinv' & Hlen' & _).
    split; [exact Hinv'|]. pose proof (free_list_inv_Len _ Hinv).
    unfold Len in *. lia.
  - pose proof (Put_frame _ _ _ _ _ _ HPut) as (Hopt & _).
    rewrite Hopt in Hcap |- *. destruct (IH Hcap) as [Hinv Hav].
    assert (Hm : MaxCap (opt s) <= max_int32) by lia.
    split; [exact (proj1 (Put_inv _ _ _ _ _ _ Hinv Hm HPut))|].
    destruct b.
    + apply Put_true in HPut as (Hroom & _ & -> & _).
      cbn [avail pushed]. pose proof (free_list_inv_Len _ Hinv).
      unfold Len in *. rewrite wrap32_id by (unfold min_int32; lia). lia.
    + apply Put_false in HPut as (_ & c & _ & -> & _). exact Hav.
  - pose proof (Close_frame _ _ _ _ _ _ HClose) as (Hopt & _).
    rewrite Hopt in Hcap |- *. destruct (IH Hcap) as [Hinv Hav].
    destruct (Close_inv _ _ _ _ _ _ Hinv HClose) as (Hinv' & _ & Hle).
    split; [exact Hinv'|lia].
  - rewrite reap_id in Hreap. injection Hreap as _ <- _. exact (IH Hcap).
  - rewrite run_opt in Hcap |- *. cbn [c_pool] in Hcap |- *.
    destruct (IH Hcap) as [Hinv Hav].
    pose proof (reachable_MaxCap _ _ Hs) as Hpos.
    apply quiescent_inv; [|exact Hdone].
    apply run_inv. apply start_inv; try assumption; lia.
Qed.



(** ** The counter wraps around *)







(** * Further properties of pool.go *)

(** ** Options.norm *)

(** X1. [norm] returns options in normal form: MaxCap is positive and at
    least InitialSize, ReapInterval is positive, and normalizing again
    changes nothing. *)
Theorem norm_normal_form o :
  0 < MaxCap (norm o) /\ InitialSize (norm o) <= MaxCap (norm o) /\
  0 < ReapInterval (norm o) /\ norm (norm o) = norm o.
Proof.
  pose proof (norm_MaxCap o) as [Hsize Hpos].
  assert (Hr : 0 < ReapInterval (norm o)).
  { rewrite norm_eq. cbn [ReapInterval].
    destruct (ReapInterval o <=? 0) eqn:Hle; [reflexivity | apply Z.leb_gt; exact Hle]. }
  rewrite norm_InitialSize. split; [exact Hpos|]. split; [exact Hsize|].
  split; [exact Hr|].
  rewrite (norm_eq (norm o)).
  apply Z.leb_gt in Hpos, Hr. rewrite Hpos, Hr, norm_InitialSize.
  rewrite Z.max_l by (apply Z.leb_gt in Hpos; lia).
  rewrite <- (norm_InitialSize o).
  destruct (norm o); reflexivity.
Qed.

(** ** A nil connection *)

Lemma wrap32_range z : min_int32 <= wrap32 z <= max_int32.
Proof.
  unfold min_int32, max_int32, wrap32.
  pose proof (Z.mod_pos_bound (z + 2147483648) 4294967296). lia.
Qed.

Lemma wrap32_pred z : wrap32 (wrap32 z - 1) = wrap32 (z - 1).
Proof.
  unfold wrap32.
  replace ((z + 2147483648) mod 4294967296 - 2147483648 - 1 + 2147483648)
    with ((z + 2147483648) mod 4294967296 + (-1)) by lia.
  replace (z - 1 + 2147483648) with ((z + 2147483648) + (-1)) by lia.
  rewrite Zplus_mod_idemp_l. reflexivity.
Qed.

(** A push followed by a pop gives the counter its value back. *)
Lemma wrap32_succ_pred z :
  min_int32 <= z <= max_int32 -> wrap32 (wrap32 (z + 1) - 1) = z.
Proof.
  intros Hz. rewrite wrap32_pred.
  replace (z + 1 - 1) with z by lia. apply wrap32_id. exact Hz.
Qed.

(** X2. What [Put] and [Get] do with the nil interface. [Put(nil)] on a pool
    that is closed or full panics (it calls [Close] on nil). On an open pool
    with room it returns true and links a member that holds nil, which [Len]
    counts. The next [Get] unlinks that member, throws it away and returns
    what the factory returns, as on a miss. *)
Theorem Put_nil_connection s w :
  (closed s = 1 \/ MaxCap (opt s) <= Len s -> Put None s w = Panic) /\
  (closed s <> 1 -> Len s < MaxCap (opt s) ->
   exists s1,
     Put None s w = Done true s1 w /\
     Len s1 = wrap32 (Len s + 1) /\
     (forall ms, free_list s ms ->
        exists a, free_list s1 ((a, {| Conn_ := None; next := head s;
                                       lastAccess := now w |}) :: ms)) /\
     forall w', exists s2,
       Get s1 w' = Done (factory s w') s2 (count_call w') /\
       head s2 = head s /\
       Len s2 = wrap32 (Len s1 - 1) /\
       (forall ms, free_list s ms -> free_list s2 ms)).
Proof.
  split.
  - intros Hfull. unfold Put.
    replace ((MaxCap (opt s) <=? Len s) || (closed s =? 1)) with true; [reflexivity|].
    symmetry. apply orb_true_iff. rewrite Z.leb_le, Z.eqb_eq. tauto.
  - intros Hopen Hroom. exists (pushed None (now w) s).
    split; [apply Put_accept; assumption|]. split; [reflexivity|]. split.
    + intros ms Hfl. eexists. apply pushed_free_list. exact Hfl.
    + intros w'. eexists. split; [|split; [|split]].
      * apply (Get_nil_member (pushed None (now w) s) w' (fresh (dom (cells s)))
                 {| Conn_ := None; next := head s; lastAccess := now w |});
          [reflexivity | apply lookup_insert_eq | reflexivity].
      * reflexivity.
      * reflexivity.
      * intros ms Hfl. unfold free_list. cbn [cells head set_avail set_head pushed next].
        apply chain_alloc; [apply fresh_cell | exact Hfl].
Qed.

Lemma Put_nil_connection_witness :
  Put None shut_pool w0 = Panic /\
  exists s1,
    Put None default_pool w0 = Done true s1 w0 /\
    Len s1 = wrap32 (Len default_pool + 1) /\
    (forall ms, free_list default_pool ms ->
       exists a, free_list s1 ((a, {| Conn_ := None; next := head default_pool;
                                      lastAccess := now w0 |}) :: ms)) /\
    forall w', exists s2,
      Get s1 w' = Done (factory default_pool w') s2 (count_call w') /\
      head s2 = head default_pool /\
      Len s2 = wrap32 (Len s1 - 1) /\
      (forall ms, free_list default_pool ms -> free_list s2 ms).
Proof.
  split.
  - apply (proj1 (Put_nil_connection shut_pool w0)). left. vm_compute. reflexivity.
  - apply (proj2 (Put_nil_connection default_pool w0)).
    + vm_compute. discriminate.
    + vm_compute. reflexivity.
Defined.

(** ** close and a nil member *)

(** [close] pops down to the first member that holds nil, that member
    included, and stops there. *)
Lemma close_loop_stops fuel err s w ms1 a m ms2 cs1 :
  free_list s (ms1 ++ (a, m) :: ms2) -> conns_of ms1 = map Some cs1 ->
  Conn_ m = None -> (length ms1 < fuel)%nat ->
  exists s', close_loop fuel err s w
             = Done (last_close_error err cs1) s' (closed_all cs1 w) /\
             free_list s' ms2 /\ closed s' = closed s /\ opt s' = opt s.
Proof.
  revert err s w ms1 cs1.
  induction fuel as [|fuel IH]; intros err s w ms1 cs1 Hfl Hcs Hnil Hfuel; [lia|].
  destruct ms1 as [|[a1 m1] ms1].
  - destruct cs1; [|discriminate].
    destruct (pop_free_list s w _ Hfl) as [Hpop Hfl'].
    eexists. split; [|split; [exact Hfl'|split; reflexivity]].
    simpl. unfold bind. rewrite Hpop, Hnil, closed_all_nil. reflexivity.
  - destruct cs1 as [|c cs1]; [discriminate|].
    simpl in Hcs. injection Hcs as Hc Hcs.
    destruct (pop_free_list s w _ Hfl) as [Hpop Hfl'].
    destruct (IH (match conn_Close c with Some e => Some e | None => err end)
                 _ (log_close c w) ms1 cs1 Hfl' Hcs Hnil) as (s' & Hrun & Hrest);
      [simpl in Hfuel; lia|].
    exists s'. split; [|exact Hrest].
    simpl. unfold bind. rewrite Hpop, Hc, closed_all_cons.
    destruct (conn_Close c); exact Hrun.
Qed.

(** X3. [Close] on an open pool whose free-list has a member holding nil:
    the connections above that member are closed, the member is dropped, and
    [Close] returns with the members below still linked and their
    connections not closed, although the pool is now closed. *)
Theorem Close_stops_at_nil fuel s w ms1 a m ms2 cs1 :
  free_list s (ms1 ++ (a, m) :: ms2) -> conns_of ms1 = map Some cs1 ->
  Conn_ m = None -> (length ms1 < fuel)%nat -> closed s = 0 ->
  exists s',
    Close fuel s w = Done (last (omap conn_Close cs1)) s' (closed_all cs1 w) /\
    closes (closed_all cs1 w) = closes w ++ cs1 /\
    free_list s' ms2 /\ closed s' = 1.
Proof.
  intros Hfl Hcs Hnil Hfuel Hopen.
  destruct (close_loop_stops fuel None
              (set_dead true (set_dying true (set_closed 1 s))) w ms1 a m ms2 cs1)
    as (s' & Hrun & Hfl' & Hcl' & _); [exact Hfl | exact Hcs | exact Hnil | exact Hfuel |].
  exists s'. split; [|split; [reflexivity|split; [exact Hfl' | exact Hcl']]].
  unfold Close. rewrite Hopen. simpl. unfold bind, close.
  rewrite Hrun, last_close_error_last. reflexivity.
Qed.

Lemma Close_stops_at_nil_witness :
  exists s',
    Close 1 nil_top_pool w0 = Done (last (omap conn_Close [])) s' (closed_all [] w0) /\
    closes (closed_all [] w0) = closes w0 ++ [] /\
    free_list s' [(1%positive, {| Conn_ := Some (mkConn 21 None); next := None;
                                  lastAccess := 100 |})] /\
    closed s' = 1.
Proof.
  apply (Close_stops_at_nil 1 nil_top_pool w0 [] 2%positive
           {| Conn_ := None; next := Some 1%positive; lastAccess := 100 |}).
  - apply (walk_chain _ 2). vm_compute. reflexivity.
  - reflexivity.
  - reflexivity.
  - simpl. lia.
  - vm_compute. reflexivity.
Defined.

(** ** The background loop *)

(** X9. The background loop, whatever it receives: ticks leave the pool and
    the world as they are, so the loop never unlinks or closes anything; the
    only thing it writes is [dead], closed when (and only when) the dying
    signal arrives. *)
Theorem loop_only_closes_dead evs s w :
  loop evs s w = Done tt (if existsb is_dying evs then set_dead true s else s) w.
Proof.
  induction evs as [|[|] evs IH]; simpl.
  - reflexivity.
  - unfold bind. rewrite reap_id. exact IH.
  - reflexivity.
Qed.

(** ** A pool that was closed *)

(** X8. A pool that is closed and empty stays as it is, whatever is called
    on it afterwards: every [Put] returns false and closes its connection,
    every [Close] returns nil, every [Len] returns the same length, every
    [Get] calls the factory once and returns what the factory returns at
    that moment; after any sequence of calls the pool is unchanged, the
    connections put have all been closed, in the order of the calls, and the
    factory was called once for each [Get]. *)
Theorem shut_pool_frozen ks : forall s w,
  closed s = 1 -> head s = None ->
  exists rs w',
    exec_all ks s w = Done rs s w' /\
    shut_trace s w ks rs /\
    closes w' = closes w ++ put_args ks /\
    factory_calls w' = (factory_calls w + gets ks)%nat.
Proof.
  induction ks as [|k ks IH]; intros s w Hshut Hempty.
  - exists [], w. simpl. unfold ret. rewrite app_nil_r, Nat.add_0_r.
    repeat split.
  - assert (Hexec : exists r,
               exec k s w = Done r s (shut_world k w) /\ shut_answers s w k r /\
               closes (shut_world k w) = closes w ++ put_args [k] /\
               factory_calls (shut_world k w) = (factory_calls w + gets [k])%nat).
    { destruct k as [|c| |fuel|]; simpl; unfold bind, ret.
      - rewrite (Get_empty _ _ Hempty). eexists.
        split; [reflexivity|]. split; [reflexivity|].
        split; [unfold put_args; cbn; rewrite app_nil_r; reflexivity | unfold gets; cbn; lia].
      - rewrite Put_reject by (right; exact Hshut). eexists.
        split; [reflexivity|]. split; [reflexivity|].
        split; [reflexivity | unfold gets; cbn; lia].
      - eexists. split; [reflexivity|]. split; [reflexivity|].
        split; [unfold put_args; cbn; rewrite app_nil_r; reflexivity | unfold gets; cbn; lia].
      - unfold Close. rewrite Hshut. simpl. eexists.
        split; [reflexivity|]. split; [reflexivity|].
        split; [unfold put_args; cbn; rewrite app_nil_r; reflexivity | unfold gets; cbn; lia].
      - rewrite reap_id. eexists.
        split; [reflexivity|]. split; [reflexivity|].
        split; [unfold put_args; cbn; rewrite app_nil_r; reflexivity | unfold gets; cbn; lia]. }
    destruct Hexec as (r & Hk & Hr & Hcl1 & Hfc1).
    destruct (IH s (shut_world k w) Hshut Hempty) as (rs & w' & Hrun & Hrs & Hcl & Hfc).
    exists (r :: rs), w'.
    split; [simpl; unfold bind; rewrite Hk, Hrun; reflexivity|].
    split; [split; assumption|].
    split.
    + rewrite Hcl, Hcl1. rewrite <- app_assoc. f_equal.
      unfold put_args. destruct k; reflexivity.
    + rewrite Hfc, Hfc1. unfold gets. destruct k; cbn; lia.
Qed.

Lemma shut_pool_frozen_witness :
  exists rs w',
    exec_all [CallPut (mkConn 7 None); CallGet; CallClose 1; CallLen; CallReap]
             shut_pool w0 = Done rs shut_pool w' /\
    shut_trace shut_pool w0
               [CallPut (mkConn 7 None); CallGet; CallClose 1; CallLen; CallReap] rs /\
    closes w' = closes w0
                ++ put_args [CallPut (mkConn 7 None); CallGet; CallClose 1;
                             CallLen; CallReap] /\
    factory_calls w' = (factory_calls w0
                        + gets [CallPut (mkConn 7 None); CallGet; CallClose 1;
                                CallLen; CallReap])%nat.
Proof.
  apply (shut_pool_frozen
           [CallPut (mkConn 7 None); CallGet; CallClose 1; CallLen; CallReap]
           shut_pool w0).
  - vm_compute. reflexivity.
  - vm_compute. reflexivity.
Defined.

(** On [shut_pool] these calls answer: refused, a new connection from the
    factory, nil, the length 0, and nothing. *)
Lemma shut_pool_answers :
  exists w',
    exec_all [CallPut (mkConn 7 None); CallGet; CallClose 1; CallLen; CallReap]
             shut_pool w0
    = Done [PutAnswer false; GetAnswer (Some (mkConn 0 None)) None;
            CloseAnswer None; LenAnswer 0; ReapAnswer] shut_pool w'.
Proof. eexists. vm_compute. reflexivity. Qed.

(** ** Any number of pushes *)

Lemma chain_mono (h h' : gmap loc poolMember) p ms :
  (forall a m, h !! a = Some m -> h' !! a = Some m) ->
  chain h p ms -> chain h' p ms.
Proof.
  intros Hsub. induction 1 as [|a m ms Ha _ IH]; constructor; auto.
Qed.

Lemma get_n_app n k s w :
  get_n (n + k) s w
  = (rs1 <- get_n n ;; rs2 <- get_n k ;; ret (rs1 ++ rs2)) s w.
Proof.
  revert s w. induction n as [|n IH]; intros s w; simpl.
  - unfold bind, ret. destruct (get_n k s w); reflexivity.
  - unfold bind. destruct (Get s w) as [r s1 w1| |]; [|reflexivity|reflexivity].
    rewrite IH. unfold bind, ret.
    destruct (get_n n s1 w1) as [rs1 s2 w2| |]; [|reflexivity|reflexivity].
    destruct (get_n k s2 w2); reflexivity.
Qed.

(** X4. Stack discipline for any number of connections: when [Put] accepts
    the connections [cs] one after the other, the next [length cs] calls of
    [Get] return them in the reverse order, each with a nil error and
    without calling the factory, and then the free-list is what it was before
    the first [Put], and so is [Len]. *)
Theorem put_all_get_n_round_trip cs : forall s w s' w',
  put_all (map Some cs) s w = Done (repeat true (length cs)) s' w' ->
  forall w2, exists s'',
    get_n (length cs) s' w2 = Done (map got (rev cs)) s'' w2 /\
    head s'' = head s /\
    (forall ms, free_list s ms -> free_list s'' ms) /\
    (min_int32 <= avail s <= max_int32 -> Len s'' = Len s) /\
    (forall a m, cells s !! a = Some m -> cells s'' !! a = Some m).
Proof.
  induction cs as [|c cs IH]; intros s w s' w' Hput w2.
  - simpl in Hput. unfold ret in Hput. injection Hput as <- _.
    exists s. simpl. unfold ret. repeat split; auto.
  - simpl in Hput. unfold bind in Hput.
    destruct (Put (Some c) s w) as [b s1 w1| |] eqn:HPut; try discriminate.
    destruct (put_all (map Some cs) s1 w1) as [bs t0 w0'| |] eqn:Hrest;
      try discriminate.
    unfold ret in Hput. injection Hput as -> -> -> ->.
    apply Put_true in HPut as (_ & _ & -> & ->).
    destruct (IH _ _ _ _ Hrest w2) as (t & Hget & Hhead & _ & Hlen & Hcells).
    set (m := {| Conn_ := Some c; next := head s; lastAccess := now w |}) in *.
    assert (Ha : cells t !! fresh (dom (cells s)) = Some m)
      by (apply Hcells; apply lookup_insert_eq).
    assert (Hsub : forall a' m', cells s !! a' = Some m' -> cells t !! a' = Some m').
    { intros a' m' Ha'. apply Hcells. cbn [cells pushed].
      rewrite lookup_insert_ne; [exact Ha' | exact (fresh_ne_member _ _ _ Ha')]. }
    exists (set_avail (wrap32 (avail t - 1)) (set_head (next m) t)).
    split; [|split; [reflexivity|split; [|split]]].
    + replace (length (c :: cs)) with (length cs + 1)%nat by (simpl; lia).
      rewrite get_n_app. unfold bind. rewrite Hget. simpl get_n. unfold bind.
      rewrite (Get_member t w2 _ m c Hhead Ha eq_refl). unfold ret.
      simpl rev. rewrite map_app. reflexivity.
    + intros ms Hfl. unfold free_list. cbn [cells head set_avail set_head next m].
      exact (chain_mono _ _ _ _ Hsub Hfl).
    + intros Hrange. unfold Len in *. cbn [avail set_avail].
      rewrite Hlen by apply wrap32_range. cbn [avail pushed].
      apply wrap32_succ_pred. exact Hrange.
    + exact Hsub.
Qed.

Lemma put_all_get_n_round_trip_witness :
  exists s'',
    get_n 3 pushed3 w0
    = Done (map got (rev [mkConn 11 None; mkConn 12 None; mkConn 13 None])) s'' w0 /\
    head s'' = head default_pool /\
    (forall ms, free_list default_pool ms -> free_list s'' ms) /\
    (min_int32 <= avail default_pool <= max_int32 -> Len s'' = Len default_pool) /\
    (forall a m, cells default_pool !! a = Some m -> cells s'' !! a = Some m).
Proof.
  apply (put_all_get_n_round_trip [mkConn 11 None; mkConn 12 None; mkConn 13 None]
           default_pool w0 pushed3 w0).
  vm_compute. reflexivity.
Defined.

(** ** Capacity *)

(** X5. MaxCap bounds the pool between calls: when at most [N] calls are in
    flight together (and MaxCap - 1 + N fits the 32-bit counter), [Len] is at
    most MaxCap - 1 + N in every state between calls; with one call at a
    time [Len] never exceeds MaxCap. *)
Theorem Len_capacity_bound N p :
  reachable N p -> (1 <= N)%nat ->
  MaxCap (opt p) - 1 + Z.of_nat N <= max_int32 ->
  Len p <= MaxCap (opt p) - 1 + Z.of_nat N.
Proof.
  intros Hreach HN Hcap. exact (proj2 (reachable_inv N p Hreach HN Hcap)).
Qed.

Lemma tight_race_reachable : reachable 2 (c_pool tight_race).
Proof.
  apply (reach_run 2 tight_pool w0
           [PutLen (Some (mkConn 31 None)); PutLen (Some (mkConn 32 None))]).
  - apply (reach_New 2 1 (Some tight_options) dial w0 tight_pool w0).
    vm_compute. reflexivity.
  - reflexivity.
  - simpl. lia.
  - vm_compute. reflexivity.
Qed.

Lemma Len_capacity_bound_witness :
  Len (c_pool tight_race) <= MaxCap (opt (c_pool tight_race)) - 1 + Z.of_nat 2.
Proof.
  apply (Len_capacity_bound 2 (c_pool tight_race)).
  - exact tight_race_reachable.
  - lia.
  - vm_compute. discriminate.
Defined.

(** The bound is reached: two racing [Put] leave two connections in a pool
    whose MaxCap is 1. *)
Lemma capacity_exceeded_by_race :
  MaxCap (opt (c_pool tight_race)) = 1 /\ Len (c_pool tight_race) = 2 /\
  c_threads tight_race = [Returned (RetBool true); Returned (RetBool true)].
Proof. repeat split; vm_compute; reflexivity. Qed.

(** ** The shape of the free-list under interleaving *)

(** What one step does to the pointers: the store only grows; the chain
    stays as it is, or gets the member the goroutine owned in front, or
    loses its first member; the member the goroutine owns afterwards is the
    one it owned or a new one; the member it holds is allocated. *)
Lemma step_effect s w ts i p ms :
  conf_shape (mkConfig s w ts) -> ts !! i = Some p ->
  chain (cells s) (head s) ms ->
  (forall a, is_Some (cells s !! a) ->
             is_Some (cells (fst (fst (step s w p))) !! a)) /\
  (exists ms',
     chain (cells (fst (fst (step s w p)))) (head (fst (fst (step s w p)))) ms' /\
     ((ms' = ms /\ unlinked_by s p = []) \/
      (exists a m, owned p = Some a /\ ms' = (a, m) :: ms /\ unlinked_by s p = [] /\
                   owned (snd (step s w p)) = None) \/
      (exists h m, ms = (h, m) :: ms' /\ unlinked_by s p = [h] /\
                   is_Some (cells s !! h)))) /\
  (forall a, owned (snd (step s w p)) = Some a ->
             is_Some (cells (fst (fst (step s w p))) !! a) /\
             (owned p = Some a \/ cells s !! a = None)) /\
  (forall h, held (snd (step s w p)) = Some h ->
             is_Some (cells (fst (fst (step s w p))) !! h)).
Proof.
  intros ((ms0 & Hc0 & Hout) & Hown & _ & Hheld) Hi Hc.
  cbn [c_pool c_threads] in *.
  assert (ms0 = ms) by exact (chain_det _ _ _ _ Hc0 Hc). subst ms0.
  assert (Hsame : forall s' p',
             cells s' = cells s -> head s' = head s -> owned p' = None ->
             unlinked_by s p = [] ->
             (forall h, held p' = Some h -> is_Some (cells s !! h)) ->
             (forall a, is_Some (cells s !! a) -> is_Some (cells s' !! a)) /\
             (exists ms',
                chain (cells s') (head s') ms' /\
                ((ms' = ms /\ unlinked_by s p = []) \/
                 (exists a m, owned p = Some a /\ ms' = (a, m) :: ms /\
                              unlinked_by s p = [] /\ owned p' = None) \/
                 (exists h m, ms = (h, m) :: ms' /\ unlinked_by s p = [h] /\
                              is_Some (cells s !! h)))) /\
             (forall a, owned p' = Some a ->
                        is_Some (cells s' !! a) /\
                        (owned p = Some a \/ cells s !! a = None)) /\
             (forall h, held p' = Some h -> is_Some (cells s' !! h))).
  { intros s' p' Hcells Hhead Hnone Hul Hh. rewrite Hcells, Hhead.
    split; [auto|]. split; [exists ms; auto|]. split; [|exact Hh].
    intros a Ha. congruence. }
  destruct p as [cn|cn|cn|cn|a|a| | |h|h| | |v|]; cbn [step].
  - destruct (MaxCap (opt s) <=? Len s); apply Hsame; solve [reflexivity | no_member].
  - destruct (closed s =? 1); apply Hsame; solve [reflexivity | no_member].
  - destruct cn; apply Hsame; solve [reflexivity | no_member].
  - unfold alloc. cbn [fst snd cells head].
    split; [intros b Hb; apply insert_is_Some; exact Hb|]. split; [|split].
    + exists ms. split; [apply chain_alloc; [apply fresh_cell | exact Hc]|]. auto.
    + intros b Hb. simpl in Hb. injection Hb as <-.
      split; [rewrite lookup_insert_eq; eauto | right; apply fresh_cell].
    + no_member.
  - destruct (Hown i _ a Hi eq_refl) as [m Ha]. rewrite Ha.
    cbn [fst snd cells head set_cells].
    split; [intros b Hb; apply insert_is_Some; exact Hb|]. split; [|split].
    + exists ms. split; [|auto].
      apply chain_write_off; [exact (Hout i _ a Hi eq_refl) | exact Hc].
    + intros b Hb. simpl in Hb. injection Hb as <-.
      split; [rewrite lookup_insert_eq; eauto | left; reflexivity].
    + no_member.
  - destruct (Hown i _ a Hi eq_refl) as [m Ha]. rewrite Ha.
    destruct (ptr_eqb (head s) (next m)) eqn:Heq.
    + apply ptr_eqb_eq in Heq. cbn [fst snd cells head set_head].
      split; [auto|]. split; [|split].
      * exists ((a, m) :: ms). split; [constructor; [exact Ha | rewrite <- Heq; exact Hc]|].
        right. left. exists a, m. auto.
      * no_member.
      * no_member.
    + cbn [fst snd]. split; [auto|]. split; [exists ms; auto|]. split.
      * intros b Hb. simpl in Hb. injection Hb as <-.
        split; [eauto | left; reflexivity].
      * no_member.
  - apply Hsame; solve [reflexivity | no_member].
  - destruct (head s) eqn:Hh; apply Hsame; try solve [reflexivity | exact Hh | no_member].
    simpl. intros h Heq. injection Heq as <-.
    inversion Hc; subst. eauto.
  - destruct (Hheld i _ h Hi eq_refl) as [m Ha]. cbn [unlinked_by]. rewrite Ha.
    destruct (ptr_eqb (head s) (Some h)) eqn:Heq.
    + apply ptr_eqb_eq in Heq. cbn [fst snd cells head set_head].
      inversion Hc as [Hnil|a0 m0 ms0 Ha0 Hc0' Hhead]; [congruence|].
      assert (a0 = h) by congruence. subst a0.
      assert (m0 = m) by congruence. subst m0 ms.
      split; [auto|]. split; [|split].
      * exists ms0. split; [exact Hc0'|]. right. right. exists h, m. eauto.
      * no_member.
      * simpl. intros h' Hh'. injection Hh' as <-. eauto.
    + cbn [fst snd]. split; [auto|]. split; [exists ms; auto|].
      split; no_member.
  - destruct (Hheld i _ h Hi eq_refl) as [m Ha]. rewrite Ha.
    destruct (Conn_ m); apply Hsame; solve [reflexivity | no_member].
  - destruct (factory s w). apply Hsame; solve [reflexivity | no_member].
  - apply Hsame; solve [reflexivity | no_member].
  - apply Hsame; solve [reflexivity | no_member].
  - apply Hsame; solve [reflexivity | no_member].
Qed.

(** Every step of every goroutine keeps [conf_shape], whatever the value of
    the counter. *)
Lemma sched_step_shape c i : conf_shape c -> conf_shape (sched_step c i).
Proof.
  destruct c as [s w ts]. intros Hinv. unfold sched_step.
  cbn [c_pool c_world c_threads].
  destruct (ts !! i) as [p|] eqn:Hi; [|exact Hinv].
  pose proof Hinv as ((ms & Hc & Hout) & Hown & Hdist & Hheld).
  cbn [c_pool c_threads] in *.
  destruct (step_effect s w ts i p ms Hinv Hi Hc)
    as (Hgrow & (ms' & Hc' & Hcase) & Hmine & Hhold).
  destruct (step s w p) as [[s' w'] p']. cbn [fst snd] in *.
  unfold conf_shape. cbn [c_pool c_threads].
  split; [|split; [|split]].
  - exists ms'. split; [exact Hc'|].
    intros j q a Hj Hq Hin. apply thread_cases in Hj as [[-> ->]|[Hne Hj]].
    + destruct (Hmine a Hq) as [_ [Hp|Hfresh]].
      * destruct Hcase as [[-> _]|[(a0 & m & _ & _ & _ & Hnone)|(h & m & -> & _)]].
        -- exact (Hout i p a Hi Hp Hin).
        -- congruence.
        -- apply (Hout i p a Hi Hp). right. exact Hin.
      * assert (Hal : is_Some (cells s !! a)).
        { destruct Hcase as [[-> _]|[(a0 & m & _ & _ & _ & Hnone)|(h & m & -> & _)]].
          - exact (chain_allocated _ _ _ _ Hc Hin).
          - congruence.
          - apply (chain_allocated _ _ _ _ Hc). right. exact Hin. }
        destruct Hal as [m Hm]. congruence.
    + pose proof (Hout j q a Hj Hq) as Hoff.
      destruct Hcase as [[-> _]|[(a0 & m & Ha0 & -> & _)|(h & m & -> & _)]].
      * exact (Hoff Hin).
      * destruct Hin as [Heq|Hin]; [|exact (Hoff Hin)].
        simpl in Heq. subst a0. apply Hne. exact (Hdist j i q p a Hj Hi Hq Ha0).
      * apply Hoff. right. exact Hin.
  - intros j q a Hj Hq. apply thread_cases in Hj as [[-> ->]|[Hne Hj]].
    + exact (proj1 (Hmine a Hq)).
    + apply Hgrow. exact (Hown j q a Hj Hq).
  - assert (Hnew : forall k r a, k <> i -> ts !! k = Some r ->
                     owned p' = Some a -> owned r = Some a -> False).
    { intros k r a Hne Hk Hq Hr. destruct (Hmine a Hq) as [_ [Hp|Hfresh]].
      - apply Hne. exact (Hdist k i r p a Hk Hi Hr Hp).
      - destruct (Hown k r a Hk Hr) as [m Hm]. congruence. }
    intros j k q r a Hj Hk Hq Hr.
    apply thread_cases in Hj as [[-> ->]|[Hnej Hj]];
      apply thread_cases in Hk as [[-> ->]|[Hnek Hk]].
    + reflexivity.
    + destruct (Hnew k r a Hnek Hk Hq Hr).
    + destruct (Hnew j q a Hnej Hj Hr Hq).
    + exact (Hdist j k q r a Hj Hk Hq Hr).
  - intros j q h Hj Hq. apply thread_cases in Hj as [[-> ->]|[Hne Hj]].
    + exact (Hhold h Hq).
    + apply Hgrow. exact (Hheld j q h Hj Hq).
Qed.

Lemma run_shape sched : forall c, conf_shape c -> conf_shape (run sched c).
Proof.
  unfold run. induction sched as [|i sched IH]; intros c Hinv; simpl.
  - exact Hinv.
  - apply IH. apply sched_step_shape. exact Hinv.
Qed.

(** Goroutines that are about to call own and hold nothing. *)
Lemma start_shape s w ts ms :
  free_list s ms -> forallb is_call ts = true -> conf_shape (mkConfig s w ts).
Proof.
  intros Hfl Hcalls. rewrite forallb_forall in Hcalls.
  assert (Hin : forall i p, ts !! i = Some p -> In p ts).
  { intros i p Hi. apply list_elem_of_In. eapply list_elem_of_lookup_2. exact Hi. }
  assert (Hown : forall i p a, ts !! i = Some p -> owned p = Some a -> False).
  { intros i p a Hi Ha. specialize (Hcalls p (Hin i p Hi)). destruct p; discriminate. }
  assert (Hheld : forall i p h, ts !! i = Some p -> held p = Some h -> False).
  { intros i p h Hi Hh. specialize (Hcalls p (Hin i p Hi)). destruct p; discriminate. }
  unfold conf_shape. cbn [c_pool c_threads].
  split; [|split; [|split]].
  - exists ms. split; [exact Hfl|]. intros i p a Hi Ha. destruct (Hown i p a Hi Ha).
  - intros i p a Hi Ha. destruct (Hown i p a Hi Ha).
  - intros i j p q a Hi _ Ha. destruct (Hown i p a Hi Ha).
  - intros i p h Hi Hh. destruct (Hheld i p h Hi Hh).
Qed.

(** ** Every pool between calls has a free-list *)

Lemma Put_linked cn s w b s' w' ms :
  free_list s ms -> Put cn s w = Done b s' w' -> exists ms', free_list s' ms'.
Proof.
  intros Hfl HPut. destruct b.
  - apply Put_true in HPut as (_ & _ & -> & _). eexists.
    apply pushed_free_list. exact Hfl.
  - apply Put_false in HPut as (_ & c & _ & -> & _). eauto.
Qed.

Lemma Get_linked s w r s' w' ms :
  free_list s ms -> Get s w = Done r s' w' -> exists ms', free_list s' ms'.
Proof.
  intros Hfl HGet. pose proof (pop_free_list s w ms Hfl) as Hpop.
  unfold Get, bind in HGet. destruct ms as [|[a m] ms].
  - rewrite Hpop in HGet. injection HGet as _ <- _. eauto.
  - destruct Hpop as [Hpop Hfl']. rewrite Hpop in HGet.
    destruct (Conn_ m); [unfold ret in HGet|]; injection HGet as _ <- _; eauto.
Qed.

Lemma close_loop_linked fuel : forall err s w e s' w' ms,
  free_list s ms -> close_loop fuel err s w = Done e s' w' ->
  exists ms', free_list s' ms'.
Proof.
  induction fuel as [|fuel IH]; intros err s w e s' w' ms Hfl Hrun; [discriminate|].
  simpl in Hrun. unfold bind in Hrun.
  pose proof (pop_free_list s w ms Hfl) as Hpop. destruct ms as [|[a m] ms].
  - rewrite Hpop in Hrun. unfold ret in Hrun. injection Hrun as _ <- _. eauto.
  - destruct Hpop as [Hpop Hfl']. rewrite Hpop in Hrun.
    destruct (Conn_ m) as [c|].
    + exact (IH _ _ _ _ _ _ _ Hfl' Hrun).
    + unfold ret in Hrun. injection Hrun as _ <- _. eauto.
Qed.

Lemma Close_linked fuel s w e s' w' ms :
  free_list s ms -> Close fuel s w = Done e s' w' -> exists ms', free_list s' ms'.
Proof.
  intros Hfl HClose. unfold Close in HClose. destruct (closed s =? 0).
  - simpl in HClose. unfold bind, close in HClose.
    apply (close_loop_linked _ _ _ _ _ _ _ ms) in HClose; [exact HClose|exact Hfl].
  - injection HClose as _ <- _. eauto.
Qed.

Lemma warm_up_linked fuel n : forall s w e s' w' ms,
  free_list s ms -> warm_up fuel n s w = Done e s' w' ->
  exists ms', free_list s' ms'.
Proof.
  induction n as [|n IH]; intros s w e s' w' ms Hfl Hrun; simpl in Hrun.
  - unfold ret in Hrun. injection Hrun as _ <- _. eauto.
  - destruct (factory s w) as [cn [err|]]; unfold bind in Hrun.
    + unfold close in Hrun.
      destruct (close_loop fuel None s (count_call w)) as [e1 s1 w1| |] eqn:Hcl;
        try discriminate.
      unfold ret in Hrun. injection Hrun as _ <- _.
      exact (close_loop_linked _ _ _ _ _ _ _ _ Hfl Hcl).
    + destruct (Put cn s (count_call w)) as [b s1 w1| |] eqn:HPut; try discriminate.
      destruct (Put_linked _ _ _ _ _ _ _ Hfl HPut) as [ms1 Hfl1].
      exact (IH _ _ _ _ _ _ Hfl1 Hrun).
Qed.

Lemma New_linked fuel o f w p w' :
  New fuel o f w = NewOk p w' -> exists ms, free_list p ms.
Proof.
  unfold New. intros HNew.
  destruct (warm_up fuel _ _ w) as [[e|] s1 w1| |] eqn:Hrun; try discriminate.
  injection HNew as <- _.
  apply (warm_up_linked _ _ _ _ _ _ _ []) in Hrun; [exact Hrun|].
  unfold free_list. cbn [cells head]. constructor.
Qed.

(** Whatever was called before, and whatever the counter has become, [head]
    leads through an acyclic chain to nil. *)
Lemma reachable_linked N p : reachable N p -> exists ms, free_list p ms.
Proof.
  induction 1 as [fuel o f w p w' HNew
                 | s w r s' w' _ [ms IH] HGet
                 | cn s w b s' w' _ [ms IH] HPut
                 | fuel s w e s' w' _ [ms IH] HClose
                 | s w u s' w' _ IH Hreap
                 | s w ts sched _ [ms IH] Hcalls _ _].
  - exact (New_linked _ _ _ _ _ _ HNew).
  - exact (Get_linked _ _ _ _ _ _ IH HGet).
  - exact (Put_linked _ _ _ _ _ _ _ IH HPut).
  - exact (Close_linked _ _ _ _ _ _ _ IH HClose).
  - rewrite reap_id in Hreap. injection Hreap as _ <- _. exact IH.
  - pose proof (run_shape sched _ (start_shape s w ts ms IH Hcalls)) as Hshape.
    destruct Hshape as ((ms' & Hc & _) & _). exists ms'. exact Hc.
Qed.

(** ** No panic under interleaving *)

Lemma step_calm s w ts i p :
  conf_shape (mkConfig s w ts) -> ts !! i = Some p ->
  calm p = true -> calm (snd (step s w p)) = true.
Proof.
  intros (_ & Hown & _ & Hheld) Hi Hp. cbn [c_pool c_threads] in *.
  destruct p as [cn|cn|cn|cn|a|a| | |h|h| | |v|]; cbn [step].
  - destruct cn; [|discriminate]. destruct (MaxCap (opt s) <=? Len s); reflexivity.
  - destruct cn; [|discriminate]. destruct (closed s =? 1); reflexivity.
  - destruct cn; [reflexivity | discriminate].
  - unfold alloc. reflexivity.
  - destruct (Hown i _ a Hi eq_refl) as [m ->]. reflexivity.
  - destruct (Hown i _ a Hi eq_refl) as [m ->].
    destruct (ptr_eqb (head s) (next m)); reflexivity.
  - reflexivity.
  - destruct (head s); reflexivity.
  - destruct (Hheld i _ h Hi eq_refl) as [m ->].
    destruct (ptr_eqb (head s) (Some h)); reflexivity.
  - destruct (Hheld i _ h Hi eq_refl) as [m ->]. destruct (Conn_ m); reflexivity.
  - destruct (factory s w). reflexivity.
  - reflexivity.
  - reflexivity.
  - discriminate.
Qed.

Lemma sched_step_calm c i :
  conf_shape c -> Forall (fun p => calm p = true) (c_threads c) ->
  Forall (fun p => calm p = true) (c_threads (sched_step c i)).
Proof.
  destruct c as [s w ts]. intros Hinv Hcalm. unfold sched_step.
  cbn [c_pool c_world c_threads] in *.
  destruct (ts !! i) as [p|] eqn:Hi; [|exact Hcalm].
  pose proof (step_calm s w ts i p Hinv Hi) as Hstep.
  destruct (step s w p) as [[s' w'] p']. cbn [c_threads].
  apply Forall_insert; [exact Hcalm|].
  apply Hstep. rewrite Forall_lookup in Hcalm. exact (Hcalm i p Hi).
Qed.

Lemma run_calm sched : forall c,
  conf_shape c -> Forall (fun p => calm p = true) (c_threads c) ->
  Forall (fun p => calm p = true) (c_threads (run sched c)).
Proof.
  unfold run. induction sched as [|i sched IH]; intros c Hinv Hcalm; simpl.
  - exact Hcalm.
  - apply IH; [apply sched_step_shape; exact Hinv | eapply sched_step_calm; eassumption].
Qed.

Lemma conn_calls_start (ts : list pc) :
  forallb is_conn_call ts = true ->
  forallb is_call ts = true /\ Forall (fun p => calm p = true) ts.
Proof.
  intros H. rewrite forallb_forall in H. split.
  - apply forallb_forall. intros p Hp. specialize (H p Hp).
    destruct p as [[c|]| | | | | | | | | | | | |]; try discriminate; reflexivity.
  - apply Forall_forall. intros p Hp. apply list_elem_of_In in Hp. specialize (H p Hp).
    destruct p as [[c|]| | | | | | | | | | | | |]; try discriminate; reflexivity.
Qed.

(** X6. No nil dereference, however the goroutines interleave: when any
    number of goroutines call [Put] on connections, [Get] and [Len] on a
    pool that is between calls, no step of any schedule makes one of them
    panic; the members they read through [head] and their own pointers are
    always allocated. This holds whatever MaxCap is, also once the 32-bit
    counter has wrapped around. *)
Theorem no_panic_under_interleaving N s w ts sched :
  reachable N s -> forallb is_conn_call ts = true ->
  Forall (fun p => p <> Crashed) (c_threads (run sched (mkConfig s w ts))).
Proof.
  intros Hreach Hcalls.
  destruct (reachable_linked N s Hreach) as [ms Hfl].
  destruct (conn_calls_start ts Hcalls) as [Hcall Hcalm].
  pose proof (run_calm sched _ (start_shape s w ts ms Hfl Hcall) Hcalm) as Hrun.
  eapply Forall_impl; [exact Hrun|].
  intros p Hp Hcrash. subst p. discriminate.
Qed.

Lemma no_panic_under_interleaving_witness :
  Forall (fun p => p <> Crashed)
         (c_threads (run race_sched
                         (mkConfig huge_pool w0
                            [PutLen (Some (mkConn 11 None)); PopLoad; LenLoad]))).
Proof.
  apply (no_panic_under_interleaving 1).
  - apply (reach_New 1 0 (Some huge_options) dial w0 huge_pool w0). reflexivity.
  - reflexivity.
Defined.

(** ** No member is unlinked twice *)

Lemma gone_step c i U :
  conf_shape c -> gone c U ->
  gone (sched_step c i)
       (U ++ match c_threads c !! i with
             | Some p => unlinked_by (c_pool c) p
             | None => []
             end).
Proof.
  destruct c as [s w ts]. intros Hinv [Hnd Hgone]. unfold sched_step.
  cbn [c_pool c_world c_threads] in *.
  destruct (ts !! i) as [p|] eqn:Hi.
  2:{ rewrite app_nil_r. split; assumption. }
  pose proof Hinv as ((ms & Hc & Hout) & Hown & _).
  cbn [c_pool c_threads] in *.
  destruct (step_effect s w ts i p ms Hinv Hi Hc)
    as (Hgrow & (ms' & Hc' & Hcase) & Hmine & _).
  destruct (step s w p) as [[s' w'] p']. cbn [fst snd] in *.
  unfold gone. cbn [c_pool c_threads].
  (* the members unlinked so far, and the one this step unlinks, if any *)
  assert (Hnew : forall h, In h (unlinked_by s p) ->
                   In h (map fst ms) /\ is_Some (cells s !! h) /\
                   ~ In h (map fst ms')).
  { intros h Hh.
    destruct Hcase as [[-> Hul]|[(a & m & _ & _ & Hul & _)|(h0 & m & -> & Hul & Hal)]];
      rewrite Hul in Hh; try contradiction.
    destruct Hh as [<-|[]]. split; [left; reflexivity|]. split; [exact Hal|].
    pose proof (chain_NoDup _ _ _ Hc) as Hnd'. simpl in Hnd'.
    apply NoDup_cons in Hnd' as [Hnotin _]. rewrite list_elem_of_In in Hnotin.
    exact Hnotin. }
  assert (Hold : forall h, In h U -> ~ In h (map fst ms')).
  { intros h Hh Hin. destruct (Hgone h Hh) as (_ & Hoff & Hfree).
    destruct Hcase as [[-> _]|[(a & m & Ha & -> & _)|(h0 & m & -> & _)]].
    - exact (Hoff ms Hc Hin).
    - destruct Hin as [Heq|Hin].
      + simpl in Heq. subst a. exact (Hfree i p Hi Ha).
      + exact (Hoff ms Hc Hin).
    - apply (Hoff _ Hc). right. exact Hin. }
  split.
  - apply NoDup_app. split; [exact Hnd|]. split.
    + intros h Hh Hh'. rewrite list_elem_of_In in Hh, Hh'.
      destruct (Hnew h Hh') as (Hin & _).
      destruct (Hgone h Hh) as (_ & Hoff & _). exact (Hoff ms Hc Hin).
    + destruct Hcase as [[_ ->]|[(a & m & _ & _ & -> & _)|(h0 & m & _ & -> & _)]];
        try constructor; [rewrite list_elem_of_In; simpl; tauto | constructor].
  - intros h Hh. apply in_app_or in Hh.
    assert (Hal : is_Some (cells s !! h)).
    { destruct Hh as [Hh|Hh]; [exact (proj1 (Hgone h Hh)) | exact (proj1 (proj2 (Hnew h Hh)))]. }
    split; [apply Hgrow; exact Hal|]. split.
    + intros ms2 Hc2. assert (ms2 = ms') by exact (chain_det _ _ _ _ Hc2 Hc'). subst ms2.
      destruct Hh as [Hh|Hh]; [exact (Hold h Hh) | exact (proj2 (proj2 (Hnew h Hh)))].
    + assert (Hfree : forall j q, ts !! j = Some q -> owned q <> Some h).
      { intros j q Hj Hq. destruct Hh as [Hh|Hh].
        - exact (proj2 (proj2 (Hgone h Hh)) j q Hj Hq).
        - exact (Hout j q h Hj Hq (proj1 (Hnew h Hh))). }
      intros j q Hj Hq. apply thread_cases in Hj as [[-> ->]|[Hne Hj]].
      * destruct (Hmine h Hq) as [_ [Hp|Hnone]].
        -- exact (Hfree i p Hi Hp).
        -- destruct Hal as [m Hm]. congruence.
      * exact (Hfree j q Hj Hq).
Qed.

Lemma unlinked_NoDup sched : forall c U,
  conf_shape c -> gone c U -> NoDup (U ++ unlinked sched c).
Proof.
  induction sched as [|i sched IH]; intros c U Hinv Hgone; simpl.
  - rewrite app_nil_r. exact (proj1 Hgone).
  - rewrite app_assoc. apply IH.
    + apply sched_step_shape. exact Hinv.
    + apply gone_step. exact Hinv. exact Hgone.
Qed.

(** X7. No member is unlinked twice, however the goroutines interleave: in
    any schedule of any number of concurrent calls of [Put], [Get] and [Len]
    on a pool that is between calls, the compare-and-swaps of [pop] that
    succeed unlink pairwise different members. This holds whatever MaxCap
    is, also once the 32-bit counter has wrapped around. *)
Theorem no_member_unlinked_twice N s w ts sched :
  reachable N s -> forallb is_call ts = true ->
  NoDup (unlinked sched (mkConfig s w ts)).
Proof.
  intros Hreach Hcalls.
  destruct (reachable_linked N s Hreach) as [ms Hfl].
  apply (unlinked_NoDup sched _ [] (start_shape s w ts ms Hfl Hcalls)).
  split; [constructor|]. intros h [].
Qed.

Lemma no_member_unlinked_twice_witness :
  NoDup (unlinked get_race_sched get_race_start).
Proof.
  apply (no_member_unlinked_twice 2 test_pool w0 [PopLoad; PopLoad] get_race_sched).
  - apply (reach_New 2 4 (Some test_options) dial w0 test_pool (world_after 3 w0)).
    vm_compute. reflexivity.
  - reflexivity.
Defined.

(** In this race the compare-and-swap that fails is tried again on the new
    head, and the two calls get the two most recent connections. *)
Lemma get_race_run :
  unlinked get_race_sched get_race_start = [3%positive; 2%positive] /\
  c_threads (run get_race_sched get_race_start)
  = [Returned (RetConn (Some (mkConn 1 None)) None);
     Returned (RetConn (Some (mkConn 2 None)) None)] /\
  Len (c_pool (run get_race_sched get_race_start)) = 1.
Proof. repeat split; vm_compute; reflexivity. Qed.

(** ** Filling the pool *)

(** X11. Returning connections to an open pool: the first MaxCap - Len of
    them are accepted, all the others are refused and closed, in the order
    of the calls, and [Len] ends at MaxCap at most. *)
Theorem put_all_fills cs : forall s w,
  free_list_inv s -> closed s <> 1 -> MaxCap (opt s) <= max_int32 ->
  exists s',
    put_all (map Some cs) s w
    = Done (repeat true (min (Z.to_nat (MaxCap (opt s) - Len s)) (length cs))
            ++ repeat false (length cs - Z.to_nat (MaxCap (opt s) - Len s)))
           s' (closed_all (drop (Z.to_nat (MaxCap (opt s) - Len s)) cs) w) /\
    Len s' = Len s + Z.of_nat (min (Z.to_nat (MaxCap (opt s) - Len s)) (length cs)) /\
    free_list_inv s' /\ opt s' = opt s /\ closed s' = closed s.
Proof.
  induction cs as [|c cs IH]; intros s w Hinv Hopen Hcap.
  - exists s. simpl. rewrite Nat.min_0_r, drop_nil, closed_all_nil. simpl.
    unfold ret. repeat split; auto. lia.
  - destruct (Z.to_nat (MaxCap (opt s) - Len s)) as [|room] eqn:Hroom.
    + assert (Hfull : MaxCap (opt s) <= Len s) by lia.
      destruct (IH s (log_close c w) Hinv Hopen Hcap) as (s' & Hrun & Hlen & Hinv' & Hopt & Hcl).
      rewrite Hroom in Hrun, Hlen. simpl in Hrun, Hlen.
      rewrite Nat.sub_0_r in Hrun.
      exists s'. split; [|repeat split; auto].
      simpl. unfold bind. rewrite Put_reject by (left; exact Hfull).
      rewrite Hrun. unfold ret. rewrite closed_all_cons. reflexivity.
    + assert (Hlt : Len s < MaxCap (opt s)) by lia.
      pose proof (free_list_inv_Len _ Hinv) as Hrange.
      assert (Hlen1 : Len (pushed (Some c) (now w) s) = Len s + 1).
      { unfold Len in *. cbn [avail pushed]. apply wrap32_id. unfold min_int32. lia. }
      assert (Hinv1 : free_list_inv (pushed (Some c) (now w) s))
        by (apply pushed_inv; [exact Hinv | unfold Len in *; lia]).
      destruct (IH (pushed (Some c) (now w) s) w Hinv1 Hopen Hcap)
        as (s' & Hrun & Hlen & Hinv' & Hopt & Hcl).
      cbn [opt pushed] in Hrun, Hlen. rewrite Hlen1 in Hrun, Hlen.
      replace (Z.to_nat (MaxCap (opt s) - (Len s + 1))) with room in Hrun, Hlen by lia.
      exists s'. split; [|split; [|auto]].
      * simpl. unfold bind. rewrite (Put_accept _ _ _ Hlt Hopen), Hrun.
        unfold ret. reflexivity.
      * rewrite Hlen. simpl length. lia.
Qed.

Lemma put_all_fills_witness :
  exists s',
    put_all (map Some test_conns) drained_pool (world_after 6 w0)
    = Done (repeat true (min (Z.to_nat (MaxCap (opt drained_pool) - Len drained_pool))
                             (length test_conns))
            ++ repeat false (length test_conns
                             - Z.to_nat (MaxCap (opt drained_pool) - Len drained_pool)))
           s' (closed_all (drop (Z.to_nat (MaxCap (opt drained_pool) - Len drained_pool))
                                test_conns) (world_after 6 w0)) /\
    Len s' = Len drained_pool
             + Z.of_nat (min (Z.to_nat (MaxCap (opt drained_pool) - Len drained_pool))
                             (length test_conns)) /\
    free_list_inv s' /\ opt s' = opt drained_pool /\ closed s' = closed drained_pool.
Proof.
  apply (put_all_fills test_conns drained_pool (world_after 6 w0)).
  - exists []. split; [apply (walk_chain _ 0); vm_compute; reflexivity|].
    split; [constructor|]. split; vm_compute; [reflexivity | discriminate].
  - vm_compute. discriminate.
  - vm_compute. discriminate.
Defined.

(** ** The free-list is ordered by age *)

Lemma aged_le t t' ms : aged t ms -> t <= t' -> aged t' ms.
Proof.
  destruct ms as [|[a m] ms]; simpl; [auto|].
  intros [Hm Hms] Hle. split; [lia | exact Hms].
Qed.

Lemma enough_fuel_le n n' k : enough_fuel n k -> (n' <= n)%nat -> enough_fuel n' k.
Proof. destruct k; simpl; auto. lia. Qed.

(** [close] returns once it has the fuel, and what it leaves linked is the
    lower end of the free-list. *)
Lemma close_loop_aged ms : forall fuel err s w,
  free_list s ms -> (length ms < fuel)%nat ->
  exists e s' w' ms',
    close_loop fuel err s w = Done e s' w' /\ free_list s' ms' /\
    (length ms' <= length ms)%nat /\ forall t, aged t ms -> aged t ms'.
Proof.
  induction ms as [|[a m] ms IH]; intros fuel err s w Hfl Hfuel;
    (destruct fuel as [|fuel]; [simpl in Hfuel; lia|]);
    pose proof (pop_free_list s w _ Hfl) as Hpop; simpl in Hpop.
  - exists err, s, w, []. simpl. unfold bind. rewrite Hpop. unfold ret. auto.
  - destruct Hpop as [Hpop Hfl']. simpl. unfold bind. rewrite Hpop.
    destruct (Conn_ m) as [c|].
    + destruct (IH fuel (match conn_Close c with Some _ => conn_Close c | None => err end)
                   _ (log_close c w) Hfl' ltac:(simpl in Hfuel; lia))
        as (e & s' & w' & ms' & Hrun & Hfl'' & Hlen & Haged).
      exists e, s', w', ms'. repeat split; auto.
      intros t [Hm Hms]. apply Haged. apply aged_le with (t := lastAccess m); auto.
    + eexists err, _, w, ms. unfold ret. repeat split; eauto.
      intros t [Hm Hms]. apply aged_le with (t := lastAccess m); auto.
Qed.

(** One call at time [t], on a free-list whose members are no newer than [t]. *)
Lemma exec_aged k t0 t s w ms :
  free_list s ms -> aged t0 ms -> t0 <= t -> enough_fuel (length ms) k ->
  exists r s' w' ms',
    exec k s (at_time t w) = Done r s' w' /\ free_list s' ms' /\ aged t ms' /\
    (length ms' <= S (length ms))%nat.
Proof.
  intros Hfl Haged Hle Hfuel.
  assert (Haged' : aged t ms) by (apply aged_le with (t := t0); assumption).
  destruct k as [|c| |fuel|]; simpl.
  - pose proof (pop_free_list s (at_time t w) _ Hfl) as Hpop.
    unfold Get, bind. destruct ms as [|[a m] ms].
    + rewrite Hpop. eexists _, s, _, []. unfold ret. repeat split; eauto.
    + destruct Hpop as [Hpop Hfl']. rewrite Hpop.
      destruct Haged' as [Hm Hms].
      assert (aged t ms) by (apply aged_le with (t := lastAccess m); auto).
      destruct (Conn_ m) as [c|]; unfold ret;
        eexists _, _, _, ms; (split; [reflexivity|]); repeat split; simpl; auto.
  - unfold bind. destruct (Put_cases s) as [Hfull|[Hlen Hopen]].
    + rewrite Put_reject by exact Hfull. eexists _, s, _, ms. unfold ret.
      repeat split; eauto.
    + rewrite (Put_accept _ _ _ Hlen Hopen). unfold ret.
      eexists _, _, _, _. split; [reflexivity|].
      split; [apply pushed_free_list; exact Hfl|].
      split; [|simpl; lia]. simpl. split; [lia | exact Haged'].
  - eexists _, s, _, ms. repeat split; eauto.
  - unfold bind, Close. destruct (closed s =? 0).
    + simpl. unfold bind.
      destruct (close_loop_aged ms fuel None
                  (set_dead true (set_dying true (set_closed 1 s))) (at_time t w))
        as (e & s' & w' & ms' & Hrun & Hfl' & Hlen & Hkeep);
        [exact Hfl | exact Hfuel |].
      unfold close. rewrite Hrun. unfold ret.
      eexists _, s', w', ms'. repeat split; auto.
    + unfold ret. eexists _, s, _, ms. repeat split; eauto.
  - unfold bind. rewrite reap_id. unfold ret. eexists _, s, _, ms. repeat split; eauto.
Qed.

(** X10. When the clock never goes backwards, the free-list stays ordered
    by age through any sequence of Get, Put, Len, Close and reap calls: every
    member was put no later than the one above it, so the connection idle
    for the longest time is the last one, and all the calls return. *)
Theorem free_list_newest_first tks : forall n t s w ms,
  free_list s ms -> aged t ms -> rising t (map fst tks) ->
  (length ms + length tks <= n)%nat -> Forall (enough_fuel n) (map snd tks) ->
  exists rs s' w' ms',
    exec_timed tks s w = Done rs s' w' /\ free_list s' ms' /\
    aged (last_time t tks) ms'.
Proof.
  induction tks as [|[t1 k] tks IH]; intros n t s w ms Hfl Haged Hrise Hn Hfuel.
  - exists [], s, w, ms. auto.
  - simpl in Hrise. destruct Hrise as [Hle Hrise].
    simpl in Hfuel. apply Forall_cons in Hfuel. destruct Hfuel as [Hk Hfuel].
    simpl in Hn.
    destruct (exec_aged k t t1 s w ms Hfl Haged Hle) as (r & s1 & w1 & ms1 & Hrun & Hfl1 & Haged1 & Hlen1).
    { apply enough_fuel_le with (n := n); [exact Hk | lia]. }
    destruct (IH n t1 s1 w1 ms1 Hfl1 Haged1 Hrise ltac:(lia) Hfuel)
      as (rs & s' & w' & ms' & Hrun' & Hfl' & Haged').
    exists (r :: rs), s', w', ms'. split; [|split; [exact Hfl' | exact Haged']].
    simpl. unfold bind. rewrite Hrun, Hrun'. reflexivity.
Qed.

Lemma free_list_newest_first_witness :
  exists rs s' w' ms',
    exec_timed timed_calls test_pool w0 = Done rs s' w' /\ free_list s' ms' /\
    aged (last_time 100 timed_calls) ms'.
Proof.
  apply (free_list_newest_first timed_calls 10 100 test_pool w0 test_members).
  - apply (walk_chain _ 3). vm_compute. reflexivity.
  - vm_compute. intuition discriminate.
  - vm_compute. intuition discriminate.
  - simpl. lia.
  - repeat constructor.
Defined.
